(** * PagePaths: path normalisation, graph indexing, pagination and the
    csv round trip of [page_paths.py]

    The development embeds the methods of class [PagePaths] as Rocq
    functions and states the properties of the specification about them.

    Conventions of the embedding:
    - a Python [str] is the list of its code points ([str := list N]);
      literals are written [lit "..."];
    - the list objects [paths] and [connections] live in a heap of list
      objects addressed by locations, so that the default arguments of
      [filter_batch] are one shared object per argument;
    - a computation that can raise returns a [result]; the heap is
      threaded explicitly, and is returned also when the call raises;
    - the interpreter's built-ins ([str.isdigit], [int], the [csv]
      module) are written out after CPython 3.11 (Unicode 14.0), with
      the interpreter's default limit of 4300 digits on the conversions
      between [int] and [str]. *)

From Stdlib Require Import List ZArith NArith Bool Lia.
From Stdlib Require String Ascii DecimalString DecimalPos DecimalZ.
Import ListNotations.
Import String.StringSyntax.

(** ** Python strings *)

Definition char := N.
Definition str := list char.

Definition lit (s : String.string) : str :=
  map Ascii.N_of_ascii (String.list_ascii_of_string s).

Delimit Scope string_scope with string.
Arguments lit s%_string.

Fixpoint str_eqb (a b : str) : bool :=
  match a, b with
  | [], [] => true
  | x :: a', y :: b' => N.eqb x y && str_eqb a' b'
  | _, _ => false
  end.

(** [s.startswith(prefix)] *)
Fixpoint startswith (prefix s : str) : bool :=
  match prefix, s with
  | [], _ => true
  | x :: prefix', y :: s' => N.eqb x y && startswith prefix' s'
  | _ :: _, [] => false
  end.

(** [s.endswith(suffix)] *)
Definition endswith (suffix s : str) : bool :=
  startswith (rev suffix) (rev s).

(** [s.find(sub)]: the lowest index where [sub] occurs, or [-1]. *)
Fixpoint find_from (sub s : str) (i : Z) : Z :=
  if startswith sub s then i
  else match s with
       | [] => (-1)%Z
       | _ :: s' => find_from sub s' (i + 1)%Z
       end.

Definition find (sub s : str) : Z := find_from sub s 0%Z.

(** [s[:i]], with Python's reading of a negative bound. *)
Definition slice_to (i : Z) (s : str) : str :=
  if (i <? 0)%Z
  then firstn (Z.to_nat (Z.of_nat (length s) + i)) s
  else firstn (Z.to_nat i) s.

(** [sub in s] for strings. *)
Definition str_contains (sub s : str) : bool :=
  negb (find sub s =? -1)%Z.

(** ** PagePaths.filter_path *)

Definition filter_path (path : str) : option str :=
  if startswith (lit "/http") path || startswith (lit "http") path
  then None
  else
    let query_start_index := find (lit "?") path in
    let path :=
      if negb (query_start_index =? -1)%Z
      then slice_to query_start_index path
      else path in
    let path :=
      if negb (startswith (lit "/") path) then path ++ lit "/" else path in
    let path :=
      if negb (endswith (lit "/") path) then path ++ lit "/" else path in
    Some path.

(** ** Built-ins of the interpreter

    The character tables are those of Unicode 14.0 (CPython 3.11). *)

Definition in_ranges (rs : list (N * N)) (c : char) : bool :=
  existsb (fun r => (fst r <=? c)%N && (c <=? snd r)%N) rs.

(** Characters with the property Numeric_Type=Decimal.  Each run starts
    at a digit zero, so the value of [c] in the run from [lo] is
    [(c - lo) mod 10]. *)
Definition decimal_ranges : list (N * N) :=
  [(0x30, 0x39); (0x660, 0x669); (0x6f0, 0x6f9); (0x7c0, 0x7c9);
   (0x966, 0x96f); (0x9e6, 0x9ef); (0xa66, 0xa6f); (0xae6, 0xaef);
   (0xb66, 0xb6f); (0xbe6, 0xbef); (0xc66, 0xc6f); (0xce6, 0xcef);
   (0xd66, 0xd6f); (0xde6, 0xdef); (0xe50, 0xe59); (0xed0, 0xed9);
   (0xf20, 0xf29); (0x1040, 0x1049); (0x1090, 0x1099); (0x17e0, 0x17e9);
   (0x1810, 0x1819); (0x1946, 0x194f); (0x19d0, 0x19d9); (0x1a80, 0x1a89);
   (0x1a90, 0x1a99); (0x1b50, 0x1b59); (0x1bb0, 0x1bb9); (0x1c40, 0x1c49);
   (0x1c50, 0x1c59); (0xa620, 0xa629); (0xa8d0, 0xa8d9); (0xa900, 0xa909);
   (0xa9d0, 0xa9d9); (0xa9f0, 0xa9f9); (0xaa50, 0xaa59); (0xabf0, 0xabf9);
   (0xff10, 0xff19); (0x104a0, 0x104a9); (0x10d30, 0x10d39);
   (0x11066, 0x1106f); (0x110f0, 0x110f9); (0x11136, 0x1113f);
   (0x111d0, 0x111d9); (0x112f0, 0x112f9); (0x11450, 0x11459);
   (0x114d0, 0x114d9); (0x11650, 0x11659); (0x116c0, 0x116c9);
   (0x11730, 0x11739); (0x118e0, 0x118e9); (0x11950, 0x11959);
   (0x11c50, 0x11c59); (0x11d50, 0x11d59); (0x11da0, 0x11da9);
   (0x16a60, 0x16a69); (0x16ac0, 0x16ac9); (0x16b50, 0x16b59);
   (0x1d7ce, 0x1d7ff); (0x1e140, 0x1e149); (0x1e2f0, 0x1e2f9);
   (0x1e950, 0x1e959); (0x1fbf0, 0x1fbf9)]%N.

(** Characters with Numeric_Type=Digit that are not decimal: superscripts,
    subscripts, circled digits and the like. *)
Definition digit_only_ranges : list (N * N) :=
  [(0xb2, 0xb3); (0xb9, 0xb9); (0x1369, 0x1371); (0x19da, 0x19da);
   (0x2070, 0x2070); (0x2074, 0x2079); (0x2080, 0x2089); (0x2460, 0x2468);
   (0x2474, 0x247c); (0x2488, 0x2490); (0x24ea, 0x24ea); (0x24f5, 0x24fd);
   (0x24ff, 0x24ff); (0x2776, 0x277e); (0x2780, 0x2788); (0x278a, 0x2792);
   (0x10a40, 0x10a43); (0x10e60, 0x10e68); (0x11052, 0x1105a);
   (0x1f100, 0x1f10a)]%N.

(** Characters for which [str.isspace] holds. *)
Definition space_ranges : list (N * N) :=
  [(0x9, 0xd); (0x1c, 0x20); (0x85, 0x85); (0xa0, 0xa0); (0x1680, 0x1680);
   (0x2000, 0x200a); (0x2028, 0x2029); (0x202f, 0x202f); (0x205f, 0x205f);
   (0x3000, 0x3000)]%N.

Fixpoint decimal_in (rs : list (N * N)) (c : char) : option N :=
  match rs with
  | [] => None
  | (lo, hi) :: rs' =>
      if (lo <=? c)%N && (c <=? hi)%N
      then Some ((c - lo) mod 10)%N
      else decimal_in rs' c
  end.

Definition decimal_value (c : char) : option N :=
  decimal_in decimal_ranges c.

Definition is_decimal_char (c : char) : bool :=
  match decimal_value c with Some _ => true | None => false end.

Definition is_digit_char (c : char) : bool :=
  is_decimal_char c || in_ranges digit_only_ranges c.

Definition is_space_char (c : char) : bool := in_ranges space_ranges c.

(** [s.isdigit()]: all characters are digits and there is at least one. *)
Definition isdigit (s : str) : bool :=
  match s with
  | [] => false
  | _ :: _ => forallb is_digit_char s
  end.

(** The C-level white space that the integer parser skips. *)
Definition c_isspace (c : char) : bool :=
  ((9 <=? c)%N && (c <=? 13)%N) || (c =? 32)%N.

(** First pass of [int(s)]: characters below 127 are kept, other white
    space becomes a blank, other decimal digits become ASCII digits, and
    the first character that is none of these ends the text with a '?'. *)
Fixpoint to_ascii_decimal (s : str) : str :=
  match s with
  | [] => []
  | c :: s' =>
      if (c <? 127)%N then c :: to_ascii_decimal s'
      else if is_space_char c then 32%N :: to_ascii_decimal s'
      else match decimal_value c with
           | Some d => (48 + d)%N :: to_ascii_decimal s'
           | None => [63%N]
           end
  end.

Fixpoint skip_spaces (s : str) : str :=
  match s with
  | c :: s' => if c_isspace c then skip_spaces s' else s
  | [] => []
  end.

Definition ascii_digit (c : char) : option Z :=
  if (48 <=? c)%N && (c <=? 57)%N then Some (Z.of_N (c - 48)) else None.

(** The digit scan of base 10: digits and single underscores between
    them.  [prev_us] tells whether the previous character was '_';
    [n] counts the digits.  Returns the accumulated value, the number of
    digits and the rest of the text, or [None] on a misplaced '_'. *)
Fixpoint scan_digits (s : str) (prev_us : bool) (acc : Z) (n : nat)
  : option (Z * nat * str) :=
  match s with
  | [] => if prev_us then None else Some (acc, n, [])
  | c :: s' =>
      if (c =? 95)%N
      then if prev_us then None else scan_digits s' true acc n
      else match ascii_digit c with
           | Some d => scan_digits s' false (10 * acc + d)%Z (S n)
           | None => if prev_us then None else Some (acc, n, s)
           end
  end.

(** The interpreter's default limit on the number of digits in a
    conversion between [int] and [str]
    ([sys.int_info.default_max_str_digits]). *)
Definition max_str_digits : N := 4300.

(** [int(s)] for a string [s] (base 10); [None] is [ValueError].  Only the
    digits count for the limit: the sign, white space and underscores do
    not, leading zeros do. *)
Definition py_int (s : str) : option Z :=
  let b := skip_spaces (to_ascii_decimal s) in
  let '(negative, b) :=
    match b with
    | 43%N :: r => (false, r)
    | 45%N :: r => (true, r)
    | _ => (false, b)
    end in
  match b with
  | 95%N :: _ => None
  | _ =>
      match scan_digits b false 0%Z 0 with
      | None => None
      | Some (_, O, _) => None
      | Some (v, S _ as n, rest) =>
          if (max_str_digits <? N.of_nat n)%N then None
          else match skip_spaces rest with
               | [] => Some (if negative then (- v)%Z else v)
               | _ :: _ => None
               end
      end
  end.

(** The decimal text of an integer [n]: what [str(n)] returns, which it
    does when [n] has at most [max_str_digits] digits
    ([str_of_int_or_raise] has the other case). *)
Definition str_of_int (n : Z) : str :=
  lit (DecimalString.NilEmpty.string_of_int (Z.to_int n)).

(** ** Exceptions, results and the heap of list objects *)

Inductive exn := IndexError | KeyError | ValueError | FileNotFoundError
               | FetchError | CsvError | UnicodeEncodeError.

Inductive result (A : Type) : Type :=
  | Ok (a : A)
  | Raise (e : exn).

Arguments Ok {A} a.
Arguments Raise {A} e.

(** The elements that the two accumulators hold: a page path, or the
    three-element list [[prev_index, current_index, count]]. *)
Inductive elem :=
  | EStr (s : str)
  | EConn (prev_index current_index count : Z).

Definition elem_eqb (a b : elem) : bool :=
  match a, b with
  | EStr s, EStr t => str_eqb s t
  | EConn i j n, EConn i' j' n' => (i =? i')%Z && (j =? j')%Z && (n =? n')%Z
  | _, _ => false
  end.

Definition loc := nat.

Record heap := mkHeap { cells : loc -> list elem; next : loc }.

Definition store (l : loc) (v : list elem) (h : heap) : heap :=
  {| cells := fun l' => if Nat.eqb l' l then v else cells h l';
     next := next h |}.

(** Computations over the heap that may raise. *)
Definition M (A : Type) : Type := heap -> result A * heap.

Definition ret {A} (a : A) : M A := fun h => (Ok a, h).

Definition raise {A} (e : exn) : M A := fun h => (Raise e, h).

Definition bind {A B} (m : M A) (k : A -> M B) : M B :=
  fun h =>
    match m h with
    | (Ok a, h') => k a h'
    | (Raise e, h') => (Raise e, h')
    end.

Definition lift {A} (r : result A) : M A := fun h => (r, h).

Notation "x <- m ;; k" := (bind m (fun x => k))
  (at level 61, m at next level, right associativity).
Notation "m ;;; k" := (bind m (fun _ => k))
  (at level 61, right associativity).

(** [for x in l: f(x)] *)
Fixpoint for_each {A} (f : A -> M unit) (l : list A) : M unit :=
  match l with
  | [] => ret tt
  | x :: l' => f x ;;; for_each f l'
  end.

(** [l[i]] on a Python list, for [i >= 0]. *)
Definition subscript {A} (l : list A) (i : nat) : result A :=
  match nth_error l i with
  | Some a => Ok a
  | None => Raise IndexError
  end.

(** [x in l] and [l.index(x)] on the contents of a list. *)
Definition contains (x : elem) (l : list elem) : bool :=
  existsb (elem_eqb x) l.

Fixpoint index_of (x : elem) (l : list elem) : option nat :=
  match l with
  | [] => None
  | y :: l' =>
      if elem_eqb y x then Some 0
      else match index_of x l' with
           | Some i => Some (S i)
           | None => None
           end
  end.

Definition list_contains (x : elem) (l : loc) : M bool :=
  fun h => (Ok (contains x (cells h l)), h).

Definition list_index (x : elem) (l : loc) : M Z :=
  fun h =>
    match index_of x (cells h l) with
    | Some i => (Ok (Z.of_nat i), h)
    | None => (Raise ValueError, h)
    end.

Definition list_append (l : loc) (x : elem) : M unit :=
  fun h => (Ok tt, store l (cells h l ++ [x]) h).

Definition list_len (l : loc) : M Z :=
  fun h => (Ok (Z.of_nat (length (cells h l))), h).

(** [[]]: a new empty list object. *)
Definition new_list : M loc :=
  fun h => (Ok (next h),
            {| cells := fun l' => if Nat.eqb l' (next h) then [] else cells h l';
               next := S (next h) |}).

(** ** The Analytics Reporting response

    The keys that the code reads with [.get(key, default)] or tests with
    [in] are optional fields. *)

Record metric := mkMetric { values : option (list str) }.

Record row := mkRow {
  metrics : option (list metric);
  dimensions : option (list str) }.

Record report_data := mkData { rows : option (list row) }.

Record report := mkReport {
  data : option report_data;
  nextPageToken : option str }.

Record response := mkResponse { reports : option (list report) }.

(** [d.get(key, default)] *)
Definition get_or {A} (field : option A) (default : A) : A :=
  match field with Some a => a | None => default end.

(** [d[key]] *)
Definition getitem {A} (field : option A) : result A :=
  match field with Some a => Ok a | None => Raise KeyError end.

Definition int_of (s : str) : result Z :=
  match py_int s with Some n => Ok n | None => Raise ValueError end.

(** ** PagePaths.filter_batch *)

(** The two list objects created when [def filter_batch(..., paths=[],
    connections=[])] is executed, once, at class definition. *)
Definition default_paths : loc := 0.
Definition default_connections : loc := 1.

Definition initial_heap : heap := {| cells := fun _ => []; next := 2 |}.

(** [paths.index(x) if x in paths else (paths.append(x); len(paths) - 1)] *)
Definition index_or_append (paths : loc) (x : elem) : M Z :=
  b <- list_contains x paths ;;
  if b : bool then list_index x paths
  else list_append paths x ;;;
       n <- list_len paths ;;
       ret (n - 1)%Z.

(** [int(metrics[0]['values'][0])] *)
Definition first_count (metrics : list metric) : result Z :=
  match subscript metrics 0 with
  | Raise e => Raise e
  | Ok m =>
      match getitem (values m) with
      | Raise e => Raise e
      | Ok vs =>
          match subscript vs 0 with
          | Raise e => Raise e
          | Ok v => int_of v
          end
      end
  end.

(** The body of the inner loop; [ret tt] where the code says [continue]. *)
Definition ingest_row (paths connections : loc) (r : row) : M unit :=
  let metrics := get_or (metrics r) [] in
  let dimensions := get_or (dimensions r) [] in
  if (length dimensions <? 3)%nat then ret tt
  else
    d1 <- lift (subscript dimensions 1) ;;
    d2 <- lift (subscript dimensions 2) ;;
    match filter_path d1, filter_path d2 with
    | Some prev, Some current =>
        if str_eqb prev current then ret tt
        else
          prev_index <- index_or_append paths (EStr prev) ;;
          current_index <- index_or_append paths (EStr current) ;;
          count <- lift (first_count metrics) ;;
          list_append connections (EConn prev_index current_index count)
    | _, _ => ret tt
    end.

Definition report_rows (rp : report) : list row :=
  get_or (rows (get_or (data rp) (mkData None))) [].

Definition response_rows (rs : response) : list row :=
  flat_map report_rows (get_or (reports rs) []).

(** [filter_batch(response, paths, connections)]; an argument that the
    caller leaves out is [None] and stands for the default object. *)
Definition filter_batch (rs : response) (paths connections : option loc)
  : M (loc * loc) :=
  let paths := get_or paths default_paths in
  let connections := get_or connections default_connections in
  for_each
    (fun rp => for_each (ingest_row paths connections) (report_rows rp))
    (get_or (reports rs) []) ;;;
  ret (paths, connections).

(** ** PagePaths.get_batch and PagePaths.get *)

Record PagePaths := mkPagePaths { view_id : str; start_date : str }.

(** The body of the one report request that [get_batch] sends. *)
Record request := mkRequest {
  viewId : str;
  pageToken : str;
  pageSize : Z;
  filtersExpression : str;
  startDate : str;
  endDate : str;
  metric_expressions : list str;
  dimension_names : list str }.

(** [from_index] is the number [0] before the first fetch and the token of
    the previous response afterwards. *)
Inductive cursor := CInt (n : Z) | CStr (s : str).

(** [str(from_index)] *)
Definition py_str (c : cursor) : str :=
  match c with
  | CInt n => str_of_int n
  | CStr s => s
  end.

Definition batch_request (self : PagePaths) (from_index : cursor) : request :=
  {| viewId := view_id self;
     pageToken := py_str from_index;
     pageSize := 1000;
     filtersExpression := lit "ga:previousPagePath!=(entrance)";
     startDate := start_date self;
     endDate := lit "today";
     metric_expressions := [lit "ga:pageviews"];
     dimension_names :=
       [lit "ga:date"; lit "ga:previousPagePath"; lit "ga:pagePath"] |}.

(** What a run does, in order: the requests it sends and the responses it
    hands to [filter_batch]. *)
Inductive event :=
  | Fetch (rq : request)
  | Filter (rs : response).

Fixpoint requests_of (tr : list event) : list request :=
  match tr with
  | [] => []
  | Fetch rq :: tr' => rq :: requests_of tr'
  | Filter _ :: tr' => requests_of tr'
  end.

(** The report source: it answers the last request of the history of
    requests sent so far, or fails. *)
Definition source := list request -> result response.

(** The loop of [get].  [None] means that [fuel] iterations were not
    enough. *)
Fixpoint get_loop (src : source) (self : PagePaths) (fuel : nat)
    (from_index : cursor) (paths connections : loc) (tr : list event)
    (h : heap) : option (result (loc * loc) * heap * list event) :=
  match fuel with
  | O => None
  | S fuel' =>
      let tr := tr ++ [Fetch (batch_request self from_index)] in
      match src (requests_of tr) with
      | Raise e => Some (Raise e, h, tr)
      | Ok rs =>
          let reports := get_or (reports rs) [] in
          let '(more_pages, from_index) :=
            match reports with
            | rp :: _ =>
                match nextPageToken rp with
                | Some t => (true, CStr t)
                | None => (false, from_index)
                end
            | [] => (false, from_index)
            end in
          let tr := tr ++ [Filter rs] in
          match filter_batch rs (Some paths) (Some connections) h with
          | (Raise e, h') => Some (Raise e, h', tr)
          | (Ok (paths, connections), h') =>
              if more_pages : bool
              then get_loop src self fuel' from_index paths connections tr h'
              else Some (Ok (paths, connections), h', tr)
          end
      end
  end.

Definition get (src : source) (self : PagePaths) (fuel : nat) (h : heap)
  : option (result (loc * loc) * heap * list event) :=
  match new_list h with
  | (Ok paths, h1) =>
      match new_list h1 with
      | (Ok connections, h2) =>
          get_loop src self fuel (CInt 0) paths connections [] h2
      | (Raise e, h2) => Some (Raise e, h2, [])
      end
  | (Raise e, h1) => Some (Raise e, h1, [])
  end.

(** ** The csv module, as [write] and [read] configure it

    Dialect: comma as delimiter, the double quote as quotechar, minimal
    quoting, doubled quotes, no escape character, line terminator CR LF,
    not strict.  A file is its text, read with universal newlines; the
    file system maps a name to the text of the file.  [write] gives the
    file that the call leaves when nothing in it fails and the platform
    writes a line end as it is; [write_on], further down, is the call on a
    platform, with its failures. *)

Definition delimiter : char := 44%N.
Definition quotechar : char := 34%N.
Definition CR : char := 13%N.
Definition LF : char := 10%N.
Definition lineterminator : str := [CR; LF].
Definition field_limit : N := 131072%N.

(** The values that [write] is given: strings, integers and [None]. *)
Inductive cell :=
  | CellStr (s : str)
  | CellInt (n : Z)
  | CellNone.

(** An element of [data]: a list, or anything else. *)
Inductive item :=
  | Scalar (c : cell)
  | Row (l : list cell).

(** The text of a field: a string as it is, [None] as the empty text, any
    other value through [str]. *)
Definition field_text (c : cell) : str :=
  match c with
  | CellStr s => s
  | CellInt n => str_of_int n
  | CellNone => []
  end.

Definition needs_quotes (c : char) : bool :=
  (c =? delimiter)%N || (c =? quotechar)%N
  || existsb (N.eqb c) lineterminator.

(** The characters of a field as written: a quote is doubled. *)
Fixpoint escape_field (s : str) : str :=
  match s with
  | [] => []
  | c :: s' =>
      if (c =? quotechar)%N then quotechar :: c :: escape_field s'
      else c :: escape_field s'
  end.

Definition join_append (s : str) (quoted : bool) : str :=
  if quoted || existsb needs_quotes s
  then [quotechar] ++ escape_field s ++ [quotechar]
  else s.

Fixpoint join_fields (fields : list str) : str :=
  match fields with
  | [] => []
  | [f] => join_append f false
  | f :: fields' => join_append f false ++ [delimiter] ++ join_fields fields'
  end.

(** [writer.writerow(fields)]: a record that would be empty although it
    has a field is written as one quoted empty field. *)
Definition writerow (fields : list cell) : str :=
  let rec := join_fields (map field_text fields) in
  match fields, rec with
  | _ :: _, [] => join_append [] true ++ lineterminator
  | _, _ => rec ++ lineterminator
  end.

(** The states of the reader. *)
Inductive parser_state :=
  | START_RECORD | START_FIELD | IN_FIELD | IN_QUOTED_FIELD
  | QUOTE_IN_QUOTED_FIELD | EAT_CRNL.

(** What the parser is fed: a character of the line, or the end-of-line
    marker that follows the last character of each line. *)
Inductive input := Chr (c : char) | EOL.

Record reader := mkReader {
  state : parser_state;
  fields : list str;        (* the fields of the record so far *)
  field : str;              (* the current field, last character first *)
  field_len : N }.

Definition reader_reset : reader :=
  {| state := START_RECORD; fields := []; field := []; field_len := 0 |}.

Definition parse_save_field (rd : reader) (st : parser_state) : reader :=
  {| state := st; fields := fields rd ++ [rev (field rd)];
     field := []; field_len := 0 |}.

Definition parse_add_char (rd : reader) (st : parser_state) (c : char)
  : result reader :=
  if (field_limit <=? field_len rd)%N then Raise CsvError
  else Ok {| state := st; fields := fields rd; field := c :: field rd;
             field_len := field_len rd + 1 |}.

Definition set_state (rd : reader) (st : parser_state) : reader :=
  {| state := st; fields := fields rd; field := field rd;
     field_len := field_len rd |}.

Definition is_newline (c : char) : bool := (c =? LF)%N || (c =? CR)%N.

Definition start_field (rd : reader) (i : input) : result reader :=
  match i with
  | EOL => Ok (parse_save_field rd START_RECORD)
  | Chr c =>
      if is_newline c then Ok (parse_save_field rd EAT_CRNL)
      else if (c =? quotechar)%N then Ok (set_state rd IN_QUOTED_FIELD)
      else if (c =? delimiter)%N then Ok (parse_save_field rd START_FIELD)
      else parse_add_char rd IN_FIELD c
  end.

Definition parse_process_char (rd : reader) (i : input) : result reader :=
  match state rd with
  | START_RECORD =>
      match i with
      | EOL => Ok rd
      | Chr c =>
          if is_newline c then Ok (set_state rd EAT_CRNL)
          else start_field rd i
      end
  | START_FIELD => start_field rd i
  | IN_FIELD =>
      match i with
      | EOL => Ok (parse_save_field rd START_RECORD)
      | Chr c =>
          if is_newline c then Ok (parse_save_field rd EAT_CRNL)
          else if (c =? delimiter)%N then Ok (parse_save_field rd START_FIELD)
          else parse_add_char rd IN_FIELD c
      end
  | IN_QUOTED_FIELD =>
      match i with
      | EOL => Ok rd
      | Chr c =>
          if (c =? quotechar)%N then Ok (set_state rd QUOTE_IN_QUOTED_FIELD)
          else parse_add_char rd IN_QUOTED_FIELD c
      end
  | QUOTE_IN_QUOTED_FIELD =>
      match i with
      | EOL => Ok (parse_save_field rd START_RECORD)
      | Chr c =>
          if (c =? quotechar)%N then parse_add_char rd IN_QUOTED_FIELD c
          else if (c =? delimiter)%N then Ok (parse_save_field rd START_FIELD)
          else if is_newline c then Ok (parse_save_field rd EAT_CRNL)
          else parse_add_char rd IN_FIELD c
      end
  | EAT_CRNL =>
      match i with
      | EOL => Ok (set_state rd START_RECORD)
      | Chr c => if is_newline c then Ok rd else Raise CsvError
      end
  end.

Fixpoint parse_line (rd : reader) (line : str) : result reader :=
  match line with
  | [] => parse_process_char rd EOL
  | c :: line' =>
      match parse_process_char rd (Chr c) with
      | Ok rd' => parse_line rd' line'
      | Raise e => Raise e
      end
  end.

Definition is_in_quoted_field (st : parser_state) : bool :=
  match st with IN_QUOTED_FIELD => true | _ => false end.

Definition is_start_record (st : parser_state) : bool :=
  match st with START_RECORD => true | _ => false end.

(** The records that iterating the reader over [lines] yields, and the
    error that ends the iteration if there is one. *)
Fixpoint reader_records (rd : reader) (lines : list str)
  : list (list str) * option exn :=
  match lines with
  | [] =>
      if negb (field_len rd =? 0)%N || is_in_quoted_field (state rd)
      then ([fields (parse_save_field rd START_RECORD)], None)
      else ([], None)
  | line :: lines' =>
      match parse_line rd line with
      | Raise e => ([], Some e)
      | Ok rd' =>
          if is_start_record (state rd')
          then let '(recs, err) := reader_records reader_reset lines' in
               (fields rd' :: recs, err)
          else reader_records rd' lines'
      end
  end.

(** Reading a text file with universal newlines: CR LF and CR become LF,
    and a line ends after each LF. *)
Fixpoint universal_newlines (s : str) : str :=
  match s with
  | [] => []
  | c :: s' =>
      if (c =? CR)%N
      then match s' with
           | c' :: s'' =>
               if (c' =? LF)%N then LF :: universal_newlines s''
               else LF :: universal_newlines s'
           | [] => [LF]
           end
      else c :: universal_newlines s'
  end.

Fixpoint split_lines (cur : str) (s : str) : list str :=
  match s with
  | [] => match cur with [] => [] | _ :: _ => [rev cur] end
  | c :: s' =>
      if (c =? LF)%N then rev (c :: cur) :: split_lines [] s'
      else split_lines (c :: cur) s'
  end.

Definition file_lines (text : str) : list str :=
  split_lines [] (universal_newlines text).

(** ** PagePaths.write, PagePaths.read and PagePaths._maybe_to_number *)

Definition files := str -> option str.

Definition write_file (name text : str) (fs : files) : files :=
  fun n => if str_eqb n name then Some text else fs n.

(** [file_name if file_name.endswith('.csv') else file_name + '.csv'] *)
Definition csv_name (file_name : str) : str :=
  if negb (endswith (lit ".csv") file_name)
  then file_name ++ lit ".csv"
  else file_name.

Definition item_row (it : item) : list cell :=
  match it with
  | Row l => l
  | Scalar c => [c]
  end.

Definition write (data : list item) (file_name : str) (fs : files) : files :=
  write_file (csv_name file_name)
             (flat_map (fun it => writerow (item_row it)) data) fs.

(** What [read] returns for a field.  [VFloat x] stands for the outcome of
    [float(x)], which is kept symbolic. *)
Inductive value :=
  | VInt (n : Z)
  | VFloat (x : str)
  | VStr (s : str).

Definition _maybe_to_number (x : str) : result value :=
  if isdigit x
  then if str_contains (lit ".") x
       then Ok (VFloat x)
       else match int_of x with
            | Ok n => Ok (VInt n)
            | Raise e => Raise e
            end
  else Ok (VStr x).

(** An element of the list that [read] returns. *)
Inductive datum :=
  | Flat (v : value)
  | Fields (l : list value).

(** [[f(el) for el in row]] *)
Fixpoint map_result {A B} (f : A -> result B) (l : list A)
  : result (list B) :=
  match l with
  | [] => Ok []
  | a :: l' =>
      match f a with
      | Raise e => Raise e
      | Ok b =>
          match map_result f l' with
          | Raise e => Raise e
          | Ok bs => Ok (b :: bs)
          end
      end
  end.

Definition read_record (is_flat : bool) (record : list str) : result datum :=
  if is_flat
  then match subscript record 0 with
       | Raise e => Raise e
       | Ok x =>
           match _maybe_to_number x with
           | Raise e => Raise e
           | Ok v => Ok (Flat v)
           end
       end
  else match map_result _maybe_to_number record with
       | Raise e => Raise e
       | Ok l => Ok (Fields l)
       end.

(** The loop [for row in reader: data.append(...)]: the records are
    converted in order, and an error of the reader is raised when the
    iteration reaches it. *)
Fixpoint read_records (is_flat : bool) (recs : list (list str))
    (err : option exn) : result (list datum) :=
  match recs with
  | [] => match err with Some e => Raise e | None => Ok [] end
  | r :: recs' =>
      match read_record is_flat r with
      | Raise e => Raise e
      | Ok d =>
          match read_records is_flat recs' err with
          | Raise e => Raise e
          | Ok ds => Ok (d :: ds)
          end
      end
  end.

Definition read (file_name : str) (is_flat : bool) (fs : files)
  : result (list datum) :=
  match fs (csv_name file_name) with
  | None => Raise FileNotFoundError
  | Some text =>
      let '(recs, err) := reader_records reader_reset (file_lines text) in
      read_records is_flat recs err
  end.

(** ** The rows that the indexer uses

    A row is used when it has at least three dimension values and its
    second and third value normalise to two different paths; [accepted]
    gives these two paths. *)

Definition accepted (r : row) : option (str * str) :=
  let ds := get_or (dimensions r) [] in
  if (length ds <? 3)%nat then None
  else
    match nth_error ds 1, nth_error ds 2 with
    | Some d1, Some d2 =>
        match filter_path d1, filter_path d2 with
        | Some prev, Some current =>
            if str_eqb prev current then None else Some (prev, current)
        | _, _ => None
        end
    | _, _ => None
    end.

Definition is_accepted (r : row) : bool :=
  match accepted r with Some _ => true | None => false end.

(** A malformed row, in the words of the specification: fewer than three
    dimension values, or a second or third value that is invalid, or both
    normalising to the same path. *)
Definition malformed (r : row) : Prop :=
  let ds := get_or (dimensions r) [] in
  length ds < 3 \/
  exists d1 d2,
    nth_error ds 1 = Some d1 /\ nth_error ds 2 = Some d2 /\
    (filter_path d1 = None \/ filter_path d2 = None \/
     filter_path d1 = filter_path d2).

(** [x] is in the list afterwards: appended unless already there. *)
Definition with_path (x : elem) (ps : list elem) : list elem :=
  if contains x ps then ps else ps ++ [x].

(** The elements of [xs] that are not in [seen], each once, in the order
    of their first occurrence. *)
Fixpoint first_seen (seen xs : list elem) : list elem :=
  match xs with
  | [] => []
  | x :: xs' =>
      if contains x seen then first_seen seen xs'
      else x :: first_seen (seen ++ [x]) xs'
  end.

(** The canonical paths of the used rows, in the order the rows name
    them. *)
Definition row_paths (r : row) : list elem :=
  match accepted r with
  | Some (prev, current) => [EStr prev; EStr current]
  | None => []
  end.

(** The text before the first [c], and the two slash rules of
    [filter_path] applied to a text: the normal form that the lemmas on
    [filter_path] work with. *)
Fixpoint before (c : char) (s : str) : str :=
  match s with
  | [] => []
  | y :: s' => if (c =? y)%N then [] else y :: before c s'
  end.

Definition close (q : str) : str :=
  let q' := if negb (startswith (lit "/") q) then q ++ lit "/" else q in
  if negb (endswith (lit "/") q') then q' ++ lit "/" else q'.

(** ** The indexer on the contents of the two lists

    What one pass of the loop body does to the contents [ps] of [paths]
    and [cs] of [connections] when these are two different objects. *)

Definition position (x : elem) (ps : list elem) : Z :=
  match index_of x ps with
  | Some i => Z.of_nat i
  | None => (-1)%Z
  end.

Definition ingest_lists (r : row) (ps cs : list elem)
  : result unit * list elem * list elem :=
  match accepted r with
  | None => (Ok tt, ps, cs)
  | Some (prev, current) =>
      let ps1 := with_path (EStr prev) ps in
      let ps2 := with_path (EStr current) ps1 in
      match first_count (get_or (metrics r) []) with
      | Ok n =>
          (Ok tt, ps2,
           cs ++ [EConn (position (EStr prev) ps1)
                        (position (EStr current) ps2) n])
      | Raise e => (Raise e, ps2, cs)
      end
  end.

Fixpoint ingest_rows (rs : list row) (ps cs : list elem)
  : result unit * list elem * list elem :=
  match rs with
  | [] => (Ok tt, ps, cs)
  | r :: rs' =>
      match ingest_lists r ps cs with
      | (Ok _, ps', cs') => ingest_rows rs' ps' cs'
      | (Raise e, ps', cs') => (Raise e, ps', cs')
      end
  end.

(** The connection that a used row contributes, read against the final
    contents [ps] of [paths]: the positions of its two paths and the
    integer value of its first metric's first value. *)
Definition connection_for (ps : list elem) (r : row) (e : elem) : Prop :=
  exists prev current i j n,
    accepted r = Some (prev, current) /\
    index_of (EStr prev) ps = Some i /\
    index_of (EStr current) ps = Some j /\
    first_count (get_or (metrics r) []) = Ok n /\
    e = EConn (Z.of_nat i) (Z.of_nat j) n.

(** The first report's continuation cursor, if the response has one. *)
Definition token_of (rs : response) : option str :=
  match get_or (reports rs) [] with
  | rp :: _ => nextPageToken rp
  | [] => None
  end.

(** The heap in which [get] starts its loop: after [paths = []] and
    [connections = []], two new empty lists at the locations [next h] and
    [S (next h)]. *)
Definition with_new_lists (h : heap) : heap :=
  snd (new_list (snd (new_list h))).

(** A run of the pagination from the cursor [cur], on the lists [p] and
    [c], after the events [tr0] and in the heap [h]; it ends with an
    outcome and a heap, and has the events of the last argument.  Each
    request carries the current cursor.  A fetch that fails ends the run
    with its exception and the heap as it is.  A fetched page is given to
    [filter_batch] with the two lists, in the heap that the pages before
    have left; when [filter_batch] raises, the run ends with that
    exception; when it returns and the page has no token, the run ends
    with the lists it returns; when it returns and the page has a token,
    the run goes on from that token, with the lists it returns. *)
Inductive run_from (src : source) (self : PagePaths)
    : cursor -> loc -> loc -> list event -> heap ->
      result (loc * loc) -> heap -> list event -> Prop :=
  | run_fetch_failed cur p c tr0 h e :
      src (requests_of (tr0 ++ [Fetch (batch_request self cur)])) = Raise e ->
      run_from src self cur p c tr0 h (Raise e) h
               [Fetch (batch_request self cur)]
  | run_filter_raised cur p c tr0 h rs e h' :
      src (requests_of (tr0 ++ [Fetch (batch_request self cur)])) = Ok rs ->
      filter_batch rs (Some p) (Some c) h = (Raise e, h') ->
      run_from src self cur p c tr0 h (Raise e) h'
               [Fetch (batch_request self cur); Filter rs]
  | run_last_page cur p c tr0 h rs pc h' :
      src (requests_of (tr0 ++ [Fetch (batch_request self cur)])) = Ok rs ->
      token_of rs = None ->
      filter_batch rs (Some p) (Some c) h = (Ok pc, h') ->
      run_from src self cur p c tr0 h (Ok pc) h'
               [Fetch (batch_request self cur); Filter rs]
  | run_next_page cur p c tr0 h rs t p' c' h1 res h' rest :
      src (requests_of (tr0 ++ [Fetch (batch_request self cur)])) = Ok rs ->
      token_of rs = Some t ->
      filter_batch rs (Some p) (Some c) h = (Ok (p', c'), h1) ->
      run_from src self (CStr t) p' c'
               (tr0 ++ [Fetch (batch_request self cur); Filter rs]) h1
               res h' rest ->
      run_from src self cur p c tr0 h res h'
               (Fetch (batch_request self cur) :: Filter rs :: rest).

(** Whether the pagination from the cursor [cur], after the requests
    [hist], reaches within [n] fetches a fetch that fails or a page whose
    first report has no continuation token. *)
Fixpoint last_page_within (src : source) (self : PagePaths) (n : nat)
    (cur : cursor) (hist : list request) : bool :=
  match n with
  | O => false
  | S n' =>
      let hist := hist ++ [batch_request self cur] in
      match src hist with
      | Raise _ => true
      | Ok rs =>
          match token_of rs with
          | None => true
          | Some t => last_page_within src self n' (CStr t) hist
          end
      end
  end.

(** The pages that the source serves to a pagination of at most [n]
    fetches from the cursor [cur], after the requests [hist]: each request
    carries the cursor, the next cursor is the token of the page, and the
    pages end with the first page without a token, or before a fetch that
    fails. *)
Fixpoint served_pages (src : source) (self : PagePaths) (n : nat)
    (cur : cursor) (hist : list request) : list response :=
  match n with
  | O => []
  | S n' =>
      let hist := hist ++ [batch_request self cur] in
      match src hist with
      | Raise _ => []
      | Ok rs =>
          rs :: match token_of rs with
                | None => []
                | Some t => served_pages src self n' (CStr t) hist
                end
      end
  end.

(** What the caller of [get] observes: the outcome with the contents of
    the two returned lists, and the events of the run. *)
Definition observed (x : option (result (loc * loc) * heap * list event))
  : option (result (list elem * list elem) * list event) :=
  match x with
  | None => None
  | Some (Ok (p, c), h, tr) => Some (Ok (cells h p, cells h c), tr)
  | Some (Raise e, _, tr) => Some (Raise e, tr)
  end.

(** ** Views of the built-ins used in the statements *)

(** Two tables of ranges with no character in common. *)
Definition ranges_apart (rs1 rs2 : list (N * N)) : bool :=
  forallb (fun r1 =>
    forallb (fun r2 => (snd r1 <? fst r2)%N || (snd r2 <? fst r1)%N) rs2) rs1.

(** A text of ASCII digits, and the number it denotes. *)
Definition ascii_digits (x : str) : bool :=
  forallb (fun c => (48 <=? c)%N && (c <=? 57)%N) x.

Definition digits_value (x : str) : Z :=
  fold_left (fun acc c => (10 * acc + Z.of_N (c - 48))%Z) x 0%Z.

(** ** Plain fields

    A field is plain when the writer does not quote it (no delimiter, no
    quote, no CR, no LF) and it is within the reader's field limit. *)

Definition plain_char (c : char) : bool := negb (needs_quotes c).

Definition plain_field (s : str) : bool :=
  forallb plain_char s && (N.of_nat (length s) <=? field_limit)%N.

Definition row_texts (it : item) : list str := map field_text (item_row it).

Definition plain_item (it : item) : bool := forallb plain_field (row_texts it).

(** The fields of a record joined by the delimiter, without quoting. *)
Fixpoint join_plain (texts : list str) : str :=
  match texts with
  | [] => []
  | [f] => f
  | f :: texts' => f ++ [delimiter] ++ join_plain texts'
  end.

(** The reader between two fields of a record, the fields [done] read. *)
Definition reader_at (st : parser_state) (done : list str) : reader :=
  {| state := st; fields := done; field := []; field_len := 0 |}.

(** The text of a record as [writerow] writes it when its fields are
    plain, without the line terminator. *)
Definition record_text (texts : list str) : str :=
  match texts, join_plain texts with
  | _ :: _, [] => [quotechar; quotechar]
  | _, r => r
  end.

(** The rows of the responses that a run has handed to [filter_batch], in
    the order of the run. *)
Definition filtered_rows (tr : list event) : list row :=
  flat_map (fun ev => match ev with
                      | Filter rs => response_rows rs
                      | Fetch _ => []
                      end) tr.

(** ** Fields on one line

    A field that has neither CR nor LF and is within the reader's field
    limit; it may have delimiters and quotes, which make the writer quote
    it. *)

Definition line_char (c : char) : bool := negb (is_newline c).

Definition line_field (s : str) : bool :=
  forallb line_char s && (N.of_nat (length s) <=? field_limit)%N.

Definition line_item (it : item) : bool := forallb line_field (row_texts it).

(** The text of a record as [writerow] writes it, without the line
    terminator. *)
Definition written_record (texts : list str) : str :=
  match texts, join_fields texts with
  | _ :: _, [] => join_append [] true
  | _, r => r
  end.

(** The elements of [paths] and [connections] as [write] is given them:
    a path is a string, a connection a list of three integers. *)
Definition item_of_elem (e : elem) : item :=
  match e with
  | EStr s => Scalar (CellStr s)
  | EConn i j n => Row [CellInt i; CellInt j; CellInt n]
  end.

(** The same elements as [read] returns them when nothing is lost. *)
Definition datum_of_elem (e : elem) : datum :=
  match e with
  | EStr s => Flat (VStr s)
  | EConn i j n => Fields [VInt i; VInt j; VInt n]
  end.

(** ** PagePaths.write on a platform, with its failures

    The call of [write] can fail, and what reaches the file depends on
    the platform.  [open] can refuse the name.  The writer turns an
    integer into text with [str], which raises [ValueError] for an integer
    of more than [max_str_digits] digits.  The file is a text file: each
    record is handed to it in one piece, the text layer replaces every LF
    by [os.linesep] and encodes the result, and raises
    [UnicodeEncodeError] when the encoding lacks one of the characters,
    as UTF-8 lacks the surrogates.  An exception ends the call; the
    [with] statement closes the file, which then holds the records written
    before.  The encoding is taken to give back, when the file is read,
    the characters that it encodes. *)

Record platform := mkPlatform {
  os_linesep : str;
  encodable : char -> bool;
  open_error : str -> option exn }.

(** The number of digits of an integer; the sign does not count. *)
Definition int_digits (n : Z) : N :=
  N.of_nat (length (str_of_int (Z.abs n))).

(** [str(n)] with the limit on the number of digits. *)
Definition str_of_int_or_raise (n : Z) : result str :=
  if (max_str_digits <? int_digits n)%N then Raise ValueError
  else Ok (str_of_int n).

(** The text of a field, when the conversion does not raise. *)
Definition cell_text (c : cell) : result str :=
  match c with
  | CellStr s => Ok s
  | CellInt n => str_of_int_or_raise n
  | CellNone => Ok []
  end.

(** [writer.writerow(fields)] up to the text that it hands to the file. *)
Definition writerow_or_raise (fields : list cell) : result str :=
  match map_result cell_text fields with
  | Raise e => Raise e
  | Ok texts =>
      let rec := join_fields texts in
      Ok (match texts, rec with
          | _ :: _, [] => join_append [] true ++ lineterminator
          | _, _ => rec ++ lineterminator
          end)
  end.

Definition translate_newlines (linesep text : str) : str :=
  flat_map (fun c => if (c =? LF)%N then linesep else [c]) text.

(** [file.write(text)] on a file opened for writing in text mode, which
    holds [content]: the new content of the file. *)
Definition file_write (pf : platform) (text content : str) : result str :=
  let out := translate_newlines (os_linesep pf) text in
  if forallb (encodable pf) out then Ok (content ++ out)
  else Raise UnicodeEncodeError.

(** The loop over [data]: the outcome, and the content of the file when
    the loop ends. *)
Fixpoint write_rows (pf : platform) (data : list item) (content : str)
  : result unit * str :=
  match data with
  | [] => (Ok tt, content)
  | it :: data' =>
      match writerow_or_raise (item_row it) with
      | Raise e => (Raise e, content)
      | Ok line =>
          match file_write pf line content with
          | Raise e => (Raise e, content)
          | Ok content' => write_rows pf data' content'
          end
      end
  end.

(** [write(data, file_name)]: the outcome and the files after the call.
    Opening the file for writing empties it. *)
Definition write_on (pf : platform) (data : list item) (file_name : str)
    (fs : files) : result unit * files :=
  let file_name := csv_name file_name in
  match open_error pf file_name with
  | Some e => (Raise e, fs)
  | None =>
      let '(out, content) := write_rows pf data [] in
      (out, write_file file_name content fs)
  end.

(** A value that the platform can store: a string of characters that the
    encoding has, an integer within the limit on the digits. *)
Definition storable_cell (pf : platform) (c : cell) : bool :=
  match c with
  | CellStr s => forallb (encodable pf) s
  | CellInt n => (int_digits n <=? max_str_digits)%N
  | CellNone => true
  end.

Definition storable (pf : platform) (it : item) : bool :=
  forallb (storable_cell pf) (item_row it).

(** ** PagePaths.show

    [show] reads, besides the rows, the column header of each report.
    What it prints is the list of the printed lines; the only exception
    that the shown keys can cause is [TypeError]: [zip] applied to the
    [None] that [values.get('values')] gives for a metric without values,
    and [None + '='] for a metric header without a name. *)

Record metric_header := mkMetricHeader { header_name : option str }.

Record metric_header_block := mkMetricHeaderBlock {
  metricHeaderEntries : option (list metric_header) }.

Record column_header := mkColumnHeader {
  header_dimensions : option (list str);
  metricHeader : option metric_header_block }.

(** A report with its column header. *)
Record shown_report := mkShownReport {
  columnHeader : option column_header;
  shown_body : report }.

Record shown_response := mkShownResponse {
  shown_reports : option (list shown_report) }.

Inductive show_error := TypeError.

(** [for header, dimension in zip(dimension_headers, dimensions):
    print(header + ': ' + dimension)] *)
Fixpoint show_dimensions (headers dims : list str) : list str :=
  match headers, dims with
  | hd :: headers', d :: dims' =>
      (hd ++ lit ": " ++ d) :: show_dimensions headers' dims'
  | _, _ => []
  end.

(** [for metric_header, value in zip(metric_headers, vals):
    print(metric_header.get('name') + '=' + value)] *)
Fixpoint show_values (mhs : list metric_header) (vals : list str)
  : list str * option show_error :=
  match mhs, vals with
  | mh :: mhs', v :: vals' =>
      match header_name mh with
      | None => ([], Some TypeError)
      | Some n =>
          let '(out, err) := show_values mhs' vals' in
          ((n ++ lit "=" ++ v) :: out, err)
      end
  | _, _ => ([], None)
  end.

(** [for i, values in enumerate(metrics): ...] *)
Fixpoint show_metrics (mhs : list metric_header) (ms : list metric)
  : list str * option show_error :=
  match ms with
  | [] => ([], None)
  | m :: ms' =>
      match values m with
      | None => ([], Some TypeError)
      | Some vals =>
          match show_values mhs vals with
          | (out, Some e) => (out, Some e)
          | (out, None) =>
              let '(out', err) := show_metrics mhs ms' in
              (out ++ out', err)
          end
      end
  end.

(** The body of the loop over the rows, for the row counted [row_count]. *)
Definition show_row (dhs : list str) (mhs : list metric_header)
    (row_count : Z) (r : row) : list str * option show_error :=
  let ms := get_or (metrics r) [] in
  let ds := get_or (dimensions r) [] in
  let '(out, err) := show_metrics mhs ms in
  ((str_of_int row_count ++ lit ". ") :: show_dimensions dhs ds ++ out, err).

Fixpoint show_rows (dhs : list str) (mhs : list metric_header)
    (row_count : Z) (rws : list row) : list str * option show_error :=
  match rws with
  | [] => ([], None)
  | r :: rws' =>
      match show_row dhs mhs row_count r with
      | (out, Some e) => (out, Some e)
      | (out, None) =>
          let '(out', err) := show_rows dhs mhs (row_count + 1) rws' in
          (out ++ out', err)
      end
  end.

Definition show_report (rp : shown_report) : list str * option show_error :=
  let column_header :=
    get_or (columnHeader rp) (mkColumnHeader None None) in
  let dimension_headers := get_or (header_dimensions column_header) [] in
  let metric_headers :=
    get_or (metricHeaderEntries
              (get_or (metricHeader column_header)
                      (mkMetricHeaderBlock None))) [] in
  show_rows dimension_headers metric_headers 0 (report_rows (shown_body rp)).

Fixpoint show_reports (rps : list shown_report)
  : list str * option show_error :=
  match rps with
  | [] => ([], None)
  | rp :: rps' =>
      match show_report rp with
      | (out, Some e) => (out, Some e)
      | (out, None) =>
          let '(out', err) := show_reports rps' in
          (out ++ out', err)
      end
  end.

(** [show(response)]: the printed lines, and the exception if it raises. *)
Definition show (rs : shown_response) : list str * option show_error :=
  show_reports (get_or (shown_reports rs) []).

(** The metrics of a row all have the key [values]. *)
Definition metrics_have_values (r : row) : bool :=
  forallb (fun m => match values m with Some _ => true | None => false end)
          (get_or (metrics r) []).

(** The number lines [0. ], [1. ], ... of [n] rows. *)
Definition number_lines (n : nat) : list str :=
  map (fun k => str_of_int (Z.of_nat k) ++ lit ". ") (seq 0 n).

(** A report without column header, and a response of such reports. *)
Definition headerless (rp : report) : shown_report :=
  {| columnHeader := None; shown_body := rp |}.

(** The metric headers all have the key [name]. *)
Definition headers_have_names (mhs : list metric_header) : bool :=
  forallb (fun mh => match header_name mh with
                     | Some _ => true
                     | None => false
                     end) mhs.

(** The dimension and metric headers that [show] takes from a report. *)
Definition dimension_headers_of (rp : shown_report) : list str :=
  get_or (header_dimensions
            (get_or (columnHeader rp) (mkColumnHeader None None))) [].

Definition metric_headers_of (rp : shown_report) : list metric_header :=
  get_or (metricHeaderEntries
            (get_or (metricHeader
                       (get_or (columnHeader rp) (mkColumnHeader None None)))
                    (mkMetricHeaderBlock None))) [].

(** The number of lines of a row: its number line, one line for each
    dimension value that has a header, and for each metric one line for
    each value that has a header. *)
Definition row_line_count (dhs : list str) (mhs : list metric_header)
    (r : row) : nat :=
  1 + Nat.min (length dhs) (length (get_or (dimensions r) []))
  + list_sum (map (fun m => Nat.min (length mhs)
                                    (length (get_or (values m) [])))
                  (get_or (metrics r) [])).

Definition report_line_count (rp : shown_report) : nat :=
  list_sum (map (row_line_count (dimension_headers_of rp)
                                (metric_headers_of rp))
                (report_rows (shown_body rp))).

(** A report that [show] prints without raising. *)
Definition showable (rp : shown_report) : bool :=
  headers_have_names (metric_headers_of rp)
  && forallb metrics_have_values (report_rows (shown_body rp)).

(** A response with its column header, as the report source sends it for
    the request of [get_batch]. *)
Definition sample_shown (rws : list row) : shown_response :=
  {| shown_reports :=
       Some [ {| columnHeader :=
                   Some {| header_dimensions :=
                             Some [lit "ga:date"; lit "ga:previousPagePath";
                                   lit "ga:pagePath"];
                           metricHeader :=
                             Some {| metricHeaderEntries :=
                                       Some [ {| header_name :=
                                                   Some (lit "ga:pageviews")
                                              |} ] |} |};
                 shown_body :=
                   {| data := Some {| rows := Some rws |};
                      nextPageToken := None |} |} ] |}.

(** A row whose only metric has no values. *)
Definition row_without_values : row :=
  {| metrics := Some [ {| values := None |} ];
     dimensions := Some [lit "20240103"; lit "/x/"; lit "/y/"] |}.

(** ** Sample data *)

(** A row as the report source sends it: date, previous page path, page
    path, and one metric with one value. *)
Definition sample_row (date prev current pageviews : str) : row :=
  {| metrics := Some [ {| values := Some [pageviews] |} ];
     dimensions := Some [date; prev; current] |}.

(** A response of one report with the given rows and continuation token. *)
Definition sample_response (rws : list row) (token : option str) : response :=
  {| reports := Some [ {| data := Some {| rows := Some rws |};
                          nextPageToken := token |} ] |}.

Definition rows_ab_ac : list row :=
  [sample_row (lit "20240101") (lit "/a/") (lit "/b/") (lit "5");
   sample_row (lit "20240101") (lit "/a/") (lit "/c/") (lit "2")].

Definition rows_cd : list row :=
  [sample_row (lit "20240102") (lit "/c/") (lit "/d/") (lit "1")].

(** A used row whose list of metrics is empty. *)
Definition row_without_metrics : row :=
  {| metrics := Some []; dimensions := Some [lit "20240101"; lit "/a/"; lit "/b/"] |}.

Definition sample_self : PagePaths :=
  {| view_id := lit "12345"; start_date := lit "yesterday" |}.

(** A report source with two pages: the first carries the token [1000],
    the second carries none. *)
Definition two_pages : source :=
  fun hist =>
    match hist with
    | [_] => Ok (sample_response rows_ab_ac (Some (lit "1000")))
    | [_; _] => Ok (sample_response rows_cd None)
    | _ => Raise FetchError
    end.

(** A row with two dimension values only. *)
Definition row_two_dimensions : row :=
  {| metrics := Some [ {| values := Some [lit "4"] |} ];
     dimensions := Some [lit "20240101"; lit "/a/"] |}.

(** A report source with one page, without a token. *)
Definition one_page : source :=
  fun _ => Ok (sample_response rows_ab_ac None).

(** A platform with LF as line separator and UTF-8 as encoding, on which
    every name can be opened: UTF-8 has every character but the
    surrogates. *)
Definition posix_utf8 : platform :=
  {| os_linesep := [LF];
     encodable := fun c =>
       (c <? 0xD800)%N || ((0xDFFF <? c)%N && (c <? 0x110000)%N);
     open_error := fun _ => None |}.

(** The same with CR LF as line separator. *)
Definition crlf_utf8 : platform :=
  {| os_linesep := [CR; LF];
     encodable := encodable posix_utf8;
     open_error := fun _ => None |}.

(** * Properties *)

(** ** Strings *)

Lemma str_eqb_refl (s : str) : str_eqb s s = true.
Proof.
  induction s as [|c s IH]; simpl; [reflexivity|].
  now rewrite N.eqb_refl, IH.
Qed.

Lemma str_eqb_eq (s t : str) : str_eqb s t = true <-> s = t.
Proof.
  split; [|intros ->; apply str_eqb_refl].
  revert t; induction s as [|c s IH]; intros [|d t]; simpl;
    try discriminate; [reflexivity|].
  intros H. apply andb_true_iff in H as [Hc Hs].
  apply N.eqb_eq in Hc. apply IH in Hs. now subst.
Qed.

Lemma str_eqb_neq (s t : str) : str_eqb s t = false <-> s <> t.
Proof.
  split.
  - intros H ->. now rewrite str_eqb_refl in H.
  - intros H. destruct (str_eqb s t) eqn:E; [|reflexivity].
    now apply str_eqb_eq in E.
Qed.

Lemma endswith_snoc (c : char) (s : str) : endswith [c] (s ++ [c]) = true.
Proof.
  unfold endswith. rewrite rev_app_distr. simpl. now rewrite N.eqb_refl.
Qed.

(** ** filter_path *)

(** Whatever the input, a path that [filter_path] returns ends with a
    slash. *)
Lemma filter_path_ends_with_slash (p r : str) :
  filter_path p = Some r -> endswith (lit "/") r = true.
Proof.
  unfold filter_path.
  destruct (startswith (lit "/http") p || startswith (lit "http") p);
    [discriminate|].
  set (q := if negb (find (lit "?") p =? -1)%Z then _ else _).
  set (q' := if negb (startswith (lit "/") q) then _ else _).
  intros H. injection H as <-.
  destruct (endswith (lit "/") q') eqn:E; simpl; [exact E|].
  apply endswith_snoc.
Qed.

Lemma startswith_char (c : char) (s : str) :
  startswith [c] s = match s with y :: _ => (c =? y)%N | [] => false end.
Proof. destruct s; simpl; [reflexivity|]. apply andb_true_r. Qed.

Lemma find_from_char (c : char) (s : str) (i : Z) :
  (0 <= i)%Z ->
  (find_from [c] s i = -1 /\ before c s = s /\ ~ In c s)%Z \/
  (exists n, find_from [c] s i = (i + Z.of_nat n)%Z /\
             firstn n s = before c s /\ In c s).
Proof.
  revert i. induction s as [|y s IH]; intros i Hi; simpl.
  - left. auto.
  - rewrite andb_true_r. destruct (N.eqb_spec c y) as [->|Hne].
    + right. exists 0%nat. repeat split; [lia|now left].
    + destruct (IH (i + 1)%Z ltac:(lia))
        as [(H1 & H2 & H3)|(n & H1 & H2 & H3)].
      * left. rewrite H1, H2. repeat split. intros [E|E]; [now subst|auto].
      * right. exists (S n). rewrite H1. repeat split; [lia| |now right].
        simpl. now rewrite H2.
Qed.

Lemma strip_query (p : str) :
  (if negb (find (lit "?") p =? -1)%Z
   then slice_to (find (lit "?") p) p else p) = before 63%N p.
Proof.
  unfold find. change (lit "?") with (@cons char 63%N nil).
  destruct (find_from_char 63%N p 0%Z ltac:(lia))
    as [(H1 & H2 & _)|(n & H1 & H2 & _)].
  - rewrite H1. simpl. now rewrite H2.
  - rewrite Z.add_0_l in H1. rewrite H1. unfold slice_to.
    destruct (Z.eqb_spec (Z.of_nat n) (-1)); [lia|].
    destruct (Z.ltb_spec (Z.of_nat n) 0); [lia|].
    simpl. now rewrite Nat2Z.id.
Qed.

Lemma filter_path_eq (p : str) :
  filter_path p =
  if startswith (lit "/http") p || startswith (lit "http") p then None
  else Some (close (before 63%N p)).
Proof.
  unfold filter_path, close. destruct (_ || _); [reflexivity|].
  cbv zeta. now rewrite strip_query.
Qed.

Lemma before_no_char (c : char) (s : str) : ~ In c (before c s).
Proof.
  induction s as [|y s IH]; simpl; [tauto|].
  destruct (N.eqb_spec c y); simpl; [tauto|]. intros [E|E]; [now subst|auto].
Qed.

Lemma before_id (c : char) (s : str) : ~ In c s -> before c s = s.
Proof.
  induction s as [|y s IH]; simpl; [reflexivity|]. intros H.
  destruct (N.eqb_spec c y); [subst; tauto|]. f_equal. apply IH. tauto.
Qed.

Lemma before_prefix (c : char) (s : str) : exists t, s = before c s ++ t.
Proof.
  induction s as [|y s [t IH]]; simpl; [now exists []|].
  destruct (N.eqb_spec c y); [now exists (y :: s)|].
  exists t. simpl. now rewrite <- IH.
Qed.

Lemma startswith_app (pre s t : str) :
  startswith pre s = true -> startswith pre (s ++ t) = true.
Proof.
  revert s; induction pre as [|x pre IH]; intros [|y s]; simpl; try easy.
  intros H. apply andb_true_iff in H as [-> H]. simpl. now apply IH.
Qed.

Lemma close_cases (q : str) :
  close q = q \/ close q = q ++ lit "/" \/ close q = (q ++ lit "/") ++ lit "/".
Proof.
  unfold close. destruct (negb (startswith (lit "/") q));
    match goal with |- context [negb ?b] => destruct b end; simpl; auto.
Qed.

Lemma close_ends_with_slash (q : str) : endswith (lit "/") (close q) = true.
Proof.
  unfold close.
  match goal with |- context [if negb (endswith _ ?x) then _ else _] =>
    destruct (endswith (lit "/") x) eqn:E end; simpl; [exact E|].
  apply endswith_snoc.
Qed.

Lemma close_fixed (r : str) :
  startswith (lit "/") r = true -> endswith (lit "/") r = true -> close r = r.
Proof.
  intros H1 H2. unfold close. rewrite H1. simpl. now rewrite H2.
Qed.

Lemma close_no_query (q : str) : ~ In 63%N q -> ~ In 63%N (close q).
Proof.
  intros H. destruct (close_cases q) as [-> | [-> | ->]]; [exact H| |];
    rewrite ?in_app_iff; simpl; intuition discriminate.
Qed.

Ltac eqb_cases :=
  repeat match goal with
         | H : context [N.eqb ?a ?b] |- _ => destruct (N.eqb_spec a b); subst
         end.

Lemma close_not_url (q t : str) :
  startswith (lit "/http") (q ++ t) = false ->
  startswith (lit "/http") (close q) = false.
Proof.
  intros H. destruct (startswith (lit "/http") (close q)) eqn:E; [|reflexivity].
  exfalso.
  destruct (close_cases q) as [E1 | [E1 | E1]]; rewrite E1 in E; clear E1;
    destruct q as [|c0 [|c1 [|c2 [|c3 [|c4 q]]]]];
    change (lit "/http") with (@cons char 47 [104; 116; 116; 112])%N in *;
    change (lit "/") with (@cons char 47 [])%N in *;
    cbn [app startswith] in *;
    try congruence; eqb_cases; simpl in E; discriminate.
Qed.

(** A path that [filter_path] returns with a leading slash is a fixed
    point of [filter_path]. *)
Lemma filter_path_idempotent_rooted (p r : str) :
  filter_path p = Some r ->
  startswith (lit "/") r = true ->
  filter_path r = Some r.
Proof.
  rewrite filter_path_eq.
  destruct (startswith (lit "/http") p || startswith (lit "http") p) eqn:B;
    [discriminate|].
  apply orb_false_iff in B as [B _].
  intros H Hr. injection H as <-.
  destruct (before_prefix 63%N p) as [t Hp].
  rewrite Hp in B. apply close_not_url in B.
  rewrite filter_path_eq, B.
  replace (startswith (lit "http") (close (before 63%N p))) with false.
  - simpl. rewrite before_id by (apply close_no_query, before_no_char).
    now rewrite close_fixed by (auto using close_ends_with_slash).
  - destruct (close (before 63%N p)) as [|c r]; [discriminate|].
    change (lit "/") with (@cons char 47%N []) in Hr.
    rewrite startswith_char in Hr. apply N.eqb_eq in Hr. now subst.
Qed.

(** A valid input with a leading slash is normalised to a path with a
    leading and a trailing slash. *)
Lemma filter_path_rooted (p r : str) :
  startswith (lit "/") p = true ->
  filter_path p = Some r ->
  startswith (lit "/") r = true /\ endswith (lit "/") r = true.
Proof.
  intros Hp H. split; [|eapply filter_path_ends_with_slash; eassumption].
  rewrite filter_path_eq in H.
  destruct (_ || _); [discriminate|]. injection H as <-.
  destruct p as [|c p]; [discriminate|].
  change (lit "/") with (@cons char 47%N []) in *.
  rewrite startswith_char in Hp. apply N.eqb_eq in Hp. subst c.
  match goal with
  | |- context [close ?q] => destruct (close_cases q) as [E | [E | E]]
  end; rewrite E; reflexivity.
Qed.

(** C2 (the code at the failing input): for the valid input [a] the
    returned path is [a/], which does not start with a slash; the slash
    that the missing leading slash calls for is appended at the end. *)
Theorem filter_path_leading_slash_missing :
  filter_path (lit "a") = Some (lit "a/") /\
  startswith (lit "/") (lit "a/") = false /\
  endswith (lit "/") (lit "a/") = true.
Proof. repeat split. Qed.

(** C5 (the code at the failing input): normalising the valid input [a]
    gives [a/], and normalising that again gives [a//], so [filter_path]
    is not idempotent on [a]. *)
Theorem filter_path_twice_differs :
  filter_path (lit "a") = Some (lit "a/") /\
  filter_path (lit "a/") = Some (lit "a//") /\
  lit "a//" <> lit "a/".
Proof. repeat split. discriminate. Qed.

(** ** Lists of elements *)

Lemma elem_eqb_eq (a b : elem) : elem_eqb a b = true <-> a = b.
Proof.
  destruct a as [s|i j n], b as [t|i' j' n']; simpl;
    try (split; discriminate).
  - rewrite str_eqb_eq. split; congruence.
  - rewrite !andb_true_iff, !Z.eqb_eq. split.
    + now intros [[-> ->] ->].
    + intros [= -> -> ->]. auto.
Qed.

Lemma elem_eqb_refl (a : elem) : elem_eqb a a = true.
Proof. now apply elem_eqb_eq. Qed.

Lemma contains_In (x : elem) (l : list elem) : contains x l = true <-> In x l.
Proof.
  unfold contains. rewrite existsb_exists. split.
  - intros (y & Hy & E). apply elem_eqb_eq in E. now subst.
  - intros H. exists x. split; [exact H|apply elem_eqb_refl].
Qed.

Lemma contains_not_In (x : elem) (l : list elem) :
  contains x l = false <-> ~ In x l.
Proof.
  rewrite <- contains_In. destruct (contains x l); split; congruence.
Qed.

Lemma index_of_Some (x : elem) (l : list elem) (i : nat) :
  index_of x l = Some i -> nth_error l i = Some x /\ i < length l.
Proof.
  revert i. induction l as [|y l IH]; simpl; [discriminate|]. intros i.
  destruct (elem_eqb y x) eqn:E.
  - intros [= <-]. apply elem_eqb_eq in E. subst. simpl. split; [reflexivity|lia].
  - destruct (index_of x l) as [k|]; [|discriminate].
    intros [= <-]. destruct (IH k eq_refl). simpl. split; [assumption|lia].
Qed.

Lemma index_of_In (x : elem) (l : list elem) :
  In x l -> exists i, index_of x l = Some i.
Proof.
  induction l as [|y l IH]; simpl; [tauto|].
  destruct (elem_eqb y x) eqn:E; [now exists 0|].
  intros [->|H]; [now rewrite elem_eqb_refl in E|].
  destruct (IH H) as [i ->]. now exists (S i).
Qed.

Lemma index_of_app (x : elem) (l l' : list elem) (i : nat) :
  index_of x l = Some i -> index_of x (l ++ l') = Some i.
Proof.
  revert i. induction l as [|y l IH]; simpl; [discriminate|]. intros i.
  destruct (elem_eqb y x); [trivial|].
  destruct (index_of x l) as [k|]; [|discriminate].
  now rewrite (IH k eq_refl).
Qed.

Lemma index_of_last (x : elem) (l : list elem) :
  ~ In x l -> index_of x (l ++ [x]) = Some (length l).
Proof.
  induction l as [|y l IH]; simpl; intros H.
  - now rewrite elem_eqb_refl.
  - destruct (elem_eqb y x) eqn:E; [apply elem_eqb_eq in E; tauto|].
    rewrite IH by tauto. reflexivity.
Qed.

Lemma with_path_In (x : elem) (ps : list elem) : In x (with_path x ps).
Proof.
  unfold with_path. destruct (contains x ps) eqn:E.
  - now apply contains_In.
  - apply in_or_app. right. now left.
Qed.

Lemma with_path_first_seen (x : elem) (ps : list elem) :
  with_path x ps = ps ++ first_seen ps [x].
Proof.
  unfold with_path. simpl. destruct (contains x ps); [|reflexivity].
  now rewrite app_nil_r.
Qed.

Lemma first_seen_app (seen xs ys : list elem) :
  first_seen seen (xs ++ ys) =
  first_seen seen xs ++ first_seen (seen ++ first_seen seen xs) ys.
Proof.
  revert seen. induction xs as [|x xs IH]; intros seen; simpl.
  - now rewrite app_nil_r.
  - destruct (contains x seen); [apply IH|].
    rewrite IH. simpl. now rewrite <- app_assoc.
Qed.





(** ** The loop body on the heap and on the contents *)

Lemma cells_store_same (l : loc) (v : list elem) (h : heap) :
  cells (store l v h) l = v.
Proof. simpl. now rewrite Nat.eqb_refl. Qed.

Lemma cells_store_other (l l' : loc) (v : list elem) (h : heap) :
  l' <> l -> cells (store l v h) l' = cells h l'.
Proof. intros H. simpl. now apply Nat.eqb_neq in H as ->. Qed.

Lemma index_or_append_spec (p : loc) (x : elem) (h : heap) :
  exists h',
    index_or_append p x h
    = (Ok (position x (with_path x (cells h p))), h') /\
    cells h' p = with_path x (cells h p) /\
    next h' = next h /\
    forall l, l <> p -> cells h' l = cells h l.
Proof.
  unfold index_or_append, bind, list_contains, list_index, list_append,
    list_len, ret, with_path, position.
  destruct (contains x (cells h p)) eqn:E.
  - apply contains_In in E. destruct (index_of_In _ _ E) as [i Hi].
    rewrite Hi. exists h. auto.
  - apply contains_not_In in E. rewrite cells_store_same.
    rewrite (index_of_last _ _ E), length_app. simpl.
    eexists. split; [do 2 f_equal; lia|].
    rewrite cells_store_same. repeat split.
    intros l Hl. now apply cells_store_other.
Qed.

Lemma nth_error_in_range {A} (l : list A) (i : nat) :
  i < length l -> exists a, nth_error l i = Some a.
Proof.
  intros H. destruct (nth_error l i) eqn:E; [eauto|].
  apply nth_error_None in E. lia.
Qed.

(** With two different objects for [paths] and [connections], the loop
    body acts on their contents as [ingest_lists] says and leaves the rest
    of the heap alone. *)
Lemma ingest_row_lists (p c : loc) (r : row) (h : heap) :
  p <> c ->
  exists out h',
    ingest_row p c r h = (out, h') /\
    ingest_lists r (cells h p) (cells h c) = (out, cells h' p, cells h' c) /\
    next h' = next h /\
    forall l, l <> p -> l <> c -> cells h' l = cells h l.
Proof.
  intros Hpc. unfold ingest_row, ingest_lists, accepted.
  destruct (Nat.ltb_spec (length (get_or (dimensions r) [])) 3) as [Hlen|Hlen].
  { exists (Ok tt), h. auto. }
  destruct (nth_error_in_range (get_or (dimensions r) []) 1 ltac:(lia))
    as [d1 Hd1].
  destruct (nth_error_in_range (get_or (dimensions r) []) 2 ltac:(lia))
    as [d2 Hd2].
  unfold bind at 1, lift at 1, subscript. rewrite Hd1.
  unfold bind at 1, lift at 1. rewrite Hd2.
  destruct (filter_path d1) as [prev|]; [|exists (Ok tt), h; auto].
  destruct (filter_path d2) as [current|]; [|exists (Ok tt), h; auto].
  destruct (str_eqb prev current); [exists (Ok tt), h; auto|].
  destruct (index_or_append_spec p (EStr prev) h)
    as (h1 & E1 & P1 & N1 & F1).
  destruct (index_or_append_spec p (EStr current) h1)
    as (h2 & E2 & P2 & N2 & F2).
  unfold bind at 1. rewrite E1. unfold bind at 1. rewrite E2.
  unfold bind, lift, list_append. rewrite P1 in *.
  destruct (first_count (get_or (metrics r) [])) as [n|e].
  - eexists _, _. split; [reflexivity|].
    rewrite cells_store_same, (cells_store_other c p) by exact Hpc.
    rewrite P2, (F2 c), (F1 c) by auto.
    split; [reflexivity|]. split; [simpl; congruence|].
    intros l Hp Hc. rewrite cells_store_other, F2, F1 by auto. reflexivity.
  - exists (Raise e), h2. rewrite P2, (F2 c), (F1 c) by auto.
    split; [reflexivity|]. split; [reflexivity|]. split; [congruence|].
    intros l Hp Hc. rewrite F2, F1 by auto. reflexivity.
Qed.

Lemma for_each_ingest_rows (p c : loc) (rs : list row) (h : heap) :
  p <> c ->
  exists out h',
    for_each (ingest_row p c) rs h = (out, h') /\
    ingest_rows rs (cells h p) (cells h c) = (out, cells h' p, cells h' c) /\
    next h' = next h /\
    forall l, l <> p -> l <> c -> cells h' l = cells h l.
Proof.
  intros Hpc. revert h. induction rs as [|r rs IH]; intros h; simpl.
  { exists (Ok tt), h. auto. }
  destruct (ingest_row_lists p c r h Hpc) as (out & h1 & E & L & N & F).
  unfold bind. rewrite E, L. destruct out as [[]|e].
  - destruct (IH h1) as (out & h2 & E2 & L2 & N2 & F2).
    exists out, h2. repeat split; [assumption..|congruence|].
    intros l Hp Hc. rewrite F2, F by auto. reflexivity.
  - exists (Raise e), h1. auto.
Qed.

(** The nested loops of [filter_batch] visit the rows of all reports in
    order. *)
Lemma for_each_app {A} (f : A -> M unit) (l l' : list A) (h : heap) :
  for_each f (l ++ l') h = (for_each f l ;;; for_each f l') h.
Proof.
  revert h. induction l as [|a l IH]; intros h; simpl.
  - unfold bind, ret. reflexivity.
  - unfold bind. destruct (f a h) as [[[]|e] h1]; [|reflexivity].
    apply IH.
Qed.

Lemma for_each_reports (f : row -> M unit) (rps : list report) (h : heap) :
  for_each (fun rp => for_each f (report_rows rp)) rps h
  = for_each f (flat_map report_rows rps) h.
Proof.
  revert h. induction rps as [|rp rps IH]; intros h; simpl; [reflexivity|].
  rewrite for_each_app. unfold bind.
  destruct (for_each f (report_rows rp) h) as [[[]|e] h1]; [|reflexivity].
  apply IH.
Qed.

Lemma filter_batch_rows (rs : response) (ps cs : option loc) (h : heap) :
  filter_batch rs ps cs h =
  match for_each (ingest_row (get_or ps default_paths)
                             (get_or cs default_connections))
                 (response_rows rs) h with
  | (Ok _, h') =>
      (Ok (get_or ps default_paths, get_or cs default_connections), h')
  | (Raise e, h') => (Raise e, h')
  end.
Proof.
  unfold filter_batch, bind, response_rows. rewrite for_each_reports.
  destruct (for_each _ _ h) as [[[]|e] h1]; reflexivity.
Qed.

(** [filter_batch] on two different list objects, in terms of their
    contents. *)
Lemma filter_batch_lists (rs : response) (p c : loc) (h : heap) :
  p <> c ->
  exists out h',
    filter_batch rs (Some p) (Some c) h = (out, h') /\
    (exists u,
       ingest_rows (response_rows rs) (cells h p) (cells h c)
       = (u, cells h' p, cells h' c) /\
       out = match u with Ok _ => Ok (p, c) | Raise e => Raise e end) /\
    next h' = next h /\
    forall l, l <> p -> l <> c -> cells h' l = cells h l.
Proof.
  intros Hpc. rewrite filter_batch_rows. simpl.
  destruct (for_each_ingest_rows p c (response_rows rs) h Hpc)
    as (u & h' & E & L & N & F).
  rewrite E. destruct u as [[]|e]; eexists _, h';
    (split; [reflexivity|]); (split; [eexists; split; [exact L|reflexivity]|]);
    auto.
Qed.

(** ** The indexer on the contents: paths *)

Lemma ingest_lists_paths (r : row) (ps cs ps' cs' : list elem)
    (out : result unit) :
  ingest_lists r ps cs = (out, ps', cs') ->
  ps' = ps ++ first_seen ps (row_paths r).
Proof.
  unfold ingest_lists, row_paths.
  destruct (accepted r) as [[prev current]|].
  - intros H.
    assert (ps' = with_path (EStr current) (with_path (EStr prev) ps)) as ->
      by (destruct (first_count _); congruence).
    rewrite !with_path_first_seen, <- app_assoc.
    change [EStr prev; EStr current] with ([EStr prev] ++ [EStr current]).
    now rewrite first_seen_app.
  - intros [= _ <- _]. simpl. now rewrite app_nil_r.
Qed.

(** The rows that a pass handles are the rows up to the first one that
    raises, and [paths] grows by their paths in first-seen order. *)
Lemma ingest_rows_paths (rs : list row) (ps cs ps' cs' : list elem)
    (out : result unit) :
  ingest_rows rs ps cs = (out, ps', cs') ->
  exists handled rest,
    rs = handled ++ rest /\
    ps' = ps ++ first_seen ps (flat_map row_paths handled) /\
    (forall u, out = Ok u -> rest = []).
Proof.
  revert ps cs. induction rs as [|r rs IH]; intros ps cs; simpl.
  - intros [= <- <- <-]. exists [], []. simpl. now rewrite app_nil_r.
  - destruct (ingest_lists r ps cs) as [[o ps1] cs1] eqn:E.
    apply ingest_lists_paths in E. destruct o as [[]|e].
    + intros H. apply IH in H as (handled & rest & -> & -> & Hrest).
      exists (r :: handled), rest. split; [reflexivity|]. split; [|exact Hrest].
      simpl. now rewrite first_seen_app, E, <- app_assoc.
    + intros [= <- <- <-]. exists [r], rs. split; [reflexivity|].
      split; [|discriminate]. simpl. now rewrite app_nil_r.
Qed.

(** ** The indexer on the contents: connections *)

Lemma position_with_path (x : elem) (ps : list elem) :
  exists i, index_of x (with_path x ps) = Some i /\
            position x (with_path x ps) = Z.of_nat i.
Proof.
  destruct (index_of_In x _ (with_path_In x ps)) as [i Hi].
  exists i. unfold position. now rewrite Hi.
Qed.

Lemma connection_for_app (ps more : list elem) (r : row) (e : elem) :
  connection_for ps r e -> connection_for (ps ++ more) r e.
Proof.
  intros (prev & current & i & j & n & A & I & J & C & ->).
  exists prev, current, i, j, n. auto using index_of_app.
Qed.

Lemma ingest_lists_connection (r : row) (ps cs ps' cs' : list elem)
    (out : result unit) :
  ingest_lists r ps cs = (out, ps', cs') ->
  match accepted r, out with
  | Some _, Ok _ => exists e, cs' = cs ++ [e] /\ connection_for ps' r e
  | _, _ => cs' = cs
  end.
Proof.
  unfold ingest_lists, connection_for.
  destruct (accepted r) as [[prev current]|]; [|now intros [= <- _ <-]].
  destruct (first_count (get_or (metrics r) [])) as [n|e] eqn:C;
    [|now intros [= <- _ <-]].
  intros [= <- <- <-].
  destruct (position_with_path (EStr prev) ps) as (i & Hi & ->).
  destruct (position_with_path (EStr current) (with_path (EStr prev) ps))
    as (j & Hj & ->).
  eexists. split; [reflexivity|].
  exists prev, current, i, j, n. repeat split; auto.
  rewrite (with_path_first_seen (EStr current)). now apply index_of_app.
Qed.

Lemma ingest_rows_connections (rs : list row) (ps cs ps' cs' : list elem)
    (u : unit) :
  ingest_rows rs ps cs = (Ok u, ps', cs') ->
  exists new,
    cs' = cs ++ new /\
    Forall2 (connection_for ps') (filter is_accepted rs) new.
Proof.
  revert ps cs. induction rs as [|r rs IH]; intros ps cs; simpl.
  - intros [= <- <-]. exists []. now rewrite app_nil_r.
  - destruct (ingest_lists r ps cs) as [[o ps1] cs1] eqn:E.
    destruct o as [[]|e]; [|discriminate]. intros H.
    pose proof (ingest_rows_paths _ _ _ _ _ _ H)
      as (handled & rest & _ & Hps & _).
    apply IH in H as (new & -> & F).
    apply ingest_lists_connection in E. unfold is_accepted.
    destruct (accepted r) as [[prev current]|].
    + destruct E as (e & -> & Ce). exists (e :: new).
      rewrite <- app_assoc. split; [reflexivity|].
      constructor; [|exact F]. rewrite Hps. now apply connection_for_app.
    + subst cs1. now exists new.
Qed.

(** ** filter_batch *)

Lemma accepted_iff (r : row) (prev current : str) :
  accepted r = Some (prev, current) <->
  exists d1 d2,
    nth_error (get_or (dimensions r) []) 1 = Some d1 /\
    nth_error (get_or (dimensions r) []) 2 = Some d2 /\
    filter_path d1 = Some prev /\ filter_path d2 = Some current /\
    prev <> current.
Proof.
  unfold accepted. split.
  - destruct (length _ <? 3)%nat; [discriminate|].
    destruct (nth_error _ 1) as [d1|] eqn:H1; [|discriminate].
    destruct (nth_error _ 2) as [d2|] eqn:H2; [|discriminate].
    destruct (filter_path d1) as [p1|] eqn:F1; [|discriminate].
    destruct (filter_path d2) as [p2|] eqn:F2; [|discriminate].
    destruct (str_eqb p1 p2) eqn:E; [discriminate|].
    intros [= <- <-]. apply str_eqb_neq in E. exists d1, d2. auto.
  - intros (d1 & d2 & H1 & H2 & F1 & F2 & Hne).
    assert (nth_error (get_or (dimensions r) []) 2 <> None) as Hlen
      by congruence.
    apply nth_error_Some in Hlen.
    destruct (Nat.ltb_spec (length (get_or (dimensions r) [])) 3); [lia|].
    rewrite H1, H2, F1, F2. apply str_eqb_neq in Hne. now rewrite Hne.
Qed.

Lemma malformed_not_accepted (r : row) : malformed r -> accepted r = None.
Proof.
  intros H. destruct (accepted r) as [[prev current]|] eqn:A; [|reflexivity].
  exfalso. apply accepted_iff in A as (d1 & d2 & H1 & H2 & F1 & F2 & Hne).
  destruct H as [H|(e1 & e2 & G1 & G2 & G)].
  - assert (nth_error (get_or (dimensions r) []) 2 <> None) as Hlen
      by congruence.
    apply nth_error_Some in Hlen. lia.
  - rewrite H1 in G1. rewrite H2 in G2.
    injection G1 as <-. injection G2 as <-.
    rewrite F1, F2 in G. destruct G as [G|[G|G]]; congruence.
Qed.

Lemma ingest_row_not_accepted (p c : loc) (r : row) (h : heap) :
  accepted r = None -> ingest_row p c r h = (Ok tt, h).
Proof.
  unfold accepted, ingest_row.
  destruct (Nat.ltb_spec (length (get_or (dimensions r) [])) 3) as [Hlen|Hlen];
    [reflexivity|].
  destruct (nth_error_in_range (get_or (dimensions r) []) 1 ltac:(lia))
    as [d1 Hd1].
  destruct (nth_error_in_range (get_or (dimensions r) []) 2 ltac:(lia))
    as [d2 Hd2].
  unfold bind, lift, subscript. rewrite Hd1, Hd2.
  destruct (filter_path d1); [|reflexivity].
  destruct (filter_path d2); [|reflexivity].
  destruct (str_eqb _ _); [reflexivity|discriminate].
Qed.

(** C6: a malformed row (fewer than three dimension values, or a second
    or third value that normalises to invalid, or both normalising to the
    same path) is skipped: the loop body returns without raising and
    leaves the heap, hence [paths] and [connections], as it was; and
    [filter_batch] on a response with such a row does exactly what it does
    on the response without the row. *)
Theorem malformed_row_skipped (r : row) :
  malformed r ->
  (forall p c h, ingest_row p c r h = (Ok tt, h)) /\
  (forall rs rs' before after ps cs h,
      response_rows rs = before ++ r :: after ->
      response_rows rs' = before ++ after ->
      filter_batch rs ps cs h = filter_batch rs' ps cs h).
Proof.
  intros H. apply malformed_not_accepted in H.
  assert (forall p c h, ingest_row p c r h = (Ok tt, h)) as Skip
    by (intros; now apply ingest_row_not_accepted).
  split; [exact Skip|].
  intros rs rs' before after ps cs h E E'.
  rewrite !filter_batch_rows, E, E', !for_each_app. unfold bind.
  destruct (for_each _ before h) as [[[]|e] h1]; [|reflexivity].
  simpl. unfold bind. now rewrite Skip.
Qed.



Lemma ingest_row_raises (p c : loc) (r : row) (h : heap)
    (prev current : str) (e : exn) :
  accepted r = Some (prev, current) ->
  first_count (get_or (metrics r) []) = Raise e ->
  exists h',
    ingest_row p c r h = (Raise e, h') /\
    cells h' p
    = with_path (EStr current) (with_path (EStr prev) (cells h p)) /\
    forall l, l <> p -> cells h' l = cells h l.
Proof.
  intros A C. apply accepted_iff in A as (d1 & d2 & H1 & H2 & F1 & F2 & Hne).
  assert (nth_error (get_or (dimensions r) []) 2 <> None) as Hlen
    by congruence.
  apply nth_error_Some in Hlen.
  unfold ingest_row.
  destruct (Nat.ltb_spec (length (get_or (dimensions r) [])) 3); [lia|].
  unfold bind at 1, lift at 1, subscript. rewrite H1.
  unfold bind at 1, lift at 1. rewrite H2, F1, F2.
  apply str_eqb_neq in Hne. rewrite Hne.
  destruct (index_or_append_spec p (EStr prev) h)
    as (h1 & E1 & P1 & _ & G1).
  destruct (index_or_append_spec p (EStr current) h1)
    as (h2 & E2 & P2 & _ & G2).
  unfold bind at 1. rewrite E1. unfold bind at 1. rewrite E2.
  unfold bind, lift. rewrite C. exists h2. split; [reflexivity|].
  split; [congruence|]. intros l Hl. rewrite G2, G1 by exact Hl. reflexivity.
Qed.

(** C9: a row with at least three dimension values whose second and third
    value normalise to two different paths, but whose list of metrics is
    empty or whose first metric has an empty list of values, is not
    skipped: [filter_batch] raises [IndexError] at it (the rows before it
    having been handled), and in the heap that the failed call leaves
    behind both paths of the row are in [paths], appended unless they were
    there already, while every other list is as it was before the row; so
    a call that fails has grown [paths] whenever the previous path was
    new. *)
Theorem missing_metric_raises_after_append (rs : response) (p c : loc)
    (h h1 : heap) (before after : list row) (r : row)
    (d1 d2 prev current : str) :
  response_rows rs = before ++ r :: after ->
  for_each (ingest_row p c) before h = (Ok tt, h1) ->
  nth_error (get_or (dimensions r) []) 1 = Some d1 ->
  nth_error (get_or (dimensions r) []) 2 = Some d2 ->
  filter_path d1 = Some prev ->
  filter_path d2 = Some current ->
  prev <> current ->
  get_or (metrics r) [] = [] \/
  (exists m ms, get_or (metrics r) [] = m :: ms /\ values m = Some []) ->
  exists h',
    filter_batch rs (Some p) (Some c) h = (Raise IndexError, h') /\
    cells h' p
    = with_path (EStr current) (with_path (EStr prev) (cells h1 p)) /\
    In (EStr prev) (cells h' p) /\
    In (EStr current) (cells h' p) /\
    (forall l, l <> p -> cells h' l = cells h1 l) /\
    (~ In (EStr prev) (cells h1 p) ->
     length (cells h1 p) < length (cells h' p)).
Proof.
  intros Hrs Hbefore H1 H2 F1 F2 Hne Hm.
  assert (accepted r = Some (prev, current)) as A
    by (apply accepted_iff; exists d1, d2; auto).
  assert (first_count (get_or (metrics r) []) = Raise IndexError) as C.
  { unfold first_count.
    destruct Hm as [->|(m & ms & -> & Hv)]; [reflexivity|].
    simpl. now rewrite Hv. }
  destruct (ingest_row_raises p c r h1 prev current IndexError A C)
    as (h' & E & P & G).
  exists h'. split.
  - rewrite filter_batch_rows, Hrs, for_each_app. simpl.
    unfold bind. now rewrite Hbefore, E.
  - split; [exact P|]. rewrite P.
    split; [|split; [apply with_path_In|split; [exact G|]]].
    + rewrite (with_path_first_seen (EStr current)).
      apply in_or_app. left. apply with_path_In.
    + intros Hnew. apply contains_not_In in Hnew.
      rewrite (with_path_first_seen (EStr current)), length_app.
      unfold with_path at 1. rewrite Hnew, length_app. simpl. lia.
Qed.

(** C3 (the code at the failing input): two calls of [filter_batch] that
    leave out [paths] and [connections] use the same two list objects.
    After a first call on the rows (/a/,/b/,5), (/a/,/c/,2), a second call
    on the row (/c/,/d/,1) returns four paths and three connections,
    whereas the same call on the initial heap returns two paths and one
    connection: what the second call returns depends on the first. *)
Theorem default_accumulators_shared :
  let first := filter_batch (sample_response rows_ab_ac None) None None
                            initial_heap in
  let second := filter_batch (sample_response rows_cd None) None None
                             (snd first) in
  let alone := filter_batch (sample_response rows_cd None) None None
                            initial_heap in
  fst second = Ok (default_paths, default_connections) /\
  fst alone = Ok (default_paths, default_connections) /\
  cells (snd second) default_paths
  = [EStr (lit "/a/"); EStr (lit "/b/"); EStr (lit "/c/"); EStr (lit "/d/")] /\
  cells (snd second) default_connections
  = [EConn 0 1 5; EConn 0 2 2; EConn 2 3 1] /\
  cells (snd alone) default_paths = [EStr (lit "/c/"); EStr (lit "/d/")] /\
  cells (snd alone) default_connections = [EConn 0 1 1].
Proof. vm_compute. repeat split. Qed.

(** The example of the specification for the indexer: the rows
    (/a/,/b/,5) and (/a/,/c/,2), ingested into two new lists, give the
    paths /a/, /b/, /c/ and the connections [0,1,5] and [0,2,2]. *)
Example ingest_two_rows :
  ingest_rows rows_ab_ac [] []
  = (Ok tt,
     [EStr (lit "/a/"); EStr (lit "/b/"); EStr (lit "/c/")],
     [EConn 0 1 5; EConn 0 2 2]).
Proof. reflexivity. Qed.

Lemma ingest_lists_raise (r : row) (ps cs ps' cs' : list elem) (e : exn) :
  ingest_lists r ps cs = (Raise e, ps', cs') ->
  is_accepted r = true /\
  first_count (get_or (metrics r) []) = Raise e /\ cs' = cs.
Proof.
  unfold ingest_lists, is_accepted.
  destruct (accepted r) as [[prev current]|]; [|discriminate].
  destruct (first_count (get_or (metrics r) [])) as [n|e']; [discriminate|].
  now intros [= <- _ <-].
Qed.

(** A pass that raises: the rows before the failing one have each
    contributed their connection, the failing row is a used row whose
    metric lookup raises, and it contributes none. *)
Lemma ingest_rows_raise (rs : list row) (ps cs ps' cs' : list elem)
    (e : exn) :
  ingest_rows rs ps cs = (Raise e, ps', cs') ->
  exists handled r rest new,
    rs = handled ++ r :: rest /\
    cs' = cs ++ new /\
    Forall2 (connection_for ps') (filter is_accepted handled) new /\
    is_accepted r = true /\
    first_count (get_or (metrics r) []) = Raise e.
Proof.
  revert ps cs. induction rs as [|r rs IH]; intros ps cs; simpl;
    [discriminate|].
  destruct (ingest_lists r ps cs) as [[o ps1] cs1] eqn:E.
  destruct o as [[]|e'].
  - intros H.
    pose proof (ingest_rows_paths _ _ _ _ _ _ H)
      as (done & rest0 & _ & Hps & _).
    apply IH in H as (handled & r' & rest & new & -> & -> & F & A & C).
    apply ingest_lists_connection in E.
    exists (r :: handled), r', rest. cbn [filter].
    unfold is_accepted at 1. destruct (accepted r) as [[prev current]|].
    + destruct E as (c & -> & Cc). exists (c :: new).
      rewrite <- app_assoc. repeat split; auto.
      constructor; [|exact F]. rewrite Hps. now apply connection_for_app.
    + subst cs1. exists new. repeat split; auto.
  - intros [= <- <- <-].
    apply ingest_lists_raise in E as (A & C & ->).
    exists [], r, rs, []. rewrite app_nil_r. repeat split; auto.
Qed.

(** When [filter_batch] raises, on two different list objects, it raises
    at a used row whose metric lookup fails, and [connections] has grown
    by the connections of the used rows before that row. *)
Lemma connections_when_filter_batch_raises (rs : response) (p c : loc)
    (h h' : heap) (e : exn) :
  p <> c ->
  filter_batch rs (Some p) (Some c) h = (Raise e, h') ->
  exists handled r rest new,
    response_rows rs = handled ++ r :: rest /\
    cells h' c = cells h c ++ new /\
    Forall2 (connection_for (cells h' p)) (filter is_accepted handled) new /\
    is_accepted r = true /\
    first_count (get_or (metrics r) []) = Raise e.
Proof.
  intros Hpc H.
  destruct (filter_batch_lists rs p c h Hpc)
    as (out0 & h0 & E & (u & L & Hout) & _ & _).
  rewrite H in E. injection E as <- <-.
  destruct u as [u|e']; [discriminate|]. injection Hout as ->.
  now apply ingest_rows_raise in L.
Qed.

(** ** get *)

Lemma requests_of_app (tr tr' : list event) :
  requests_of (tr ++ tr') = requests_of tr ++ requests_of tr'.
Proof.
  induction tr as [|[rq|rs] tr IH]; simpl; [reflexivity| |exact IH].
  now rewrite IH.
Qed.

(** The loop of [get] either runs out of fuel or returns the outcome, the
    heap and the events of a run of the pagination. *)
Lemma get_loop_run (src : source) (self : PagePaths) (fuel : nat) :
  forall cur p c tr0 h res h' tr,
    get_loop src self fuel cur p c tr0 h = Some (res, h', tr) ->
    exists suffix,
      tr = tr0 ++ suffix /\ run_from src self cur p c tr0 h res h' suffix.
Proof.
  induction fuel as [|fuel IH]; intros cur p c tr0 h res h' tr; simpl;
    [discriminate|].
  destruct (src (requests_of (tr0 ++ [Fetch (batch_request self cur)])))
    as [rs|e] eqn:S.
  2:{ intros [= <- <- <-]. eexists. split; [reflexivity|].
      now apply run_fetch_failed. }
  pose proof (eq_refl (token_of rs)) as T. unfold token_of at 2 in T.
  destruct (get_or (reports rs) []) as [|rp rps];
    [|destruct (nextPageToken rp) as [t|]];
    (destruct (filter_batch rs (Some p) (Some c) h) as [[[p' c']|e] h1] eqn:FB;
     [|intros [= <- <- <-]; exists [Fetch (batch_request self cur); Filter rs];
       rewrite <- app_assoc; split; [reflexivity|];
       now apply run_filter_raised]).
  - intros [= <- <- <-]. exists [Fetch (batch_request self cur); Filter rs].
    rewrite <- app_assoc. split; [reflexivity|].
    now apply run_last_page.
  - intros H. apply IH in H as (suffix & -> & R).
    exists (Fetch (batch_request self cur) :: Filter rs :: suffix).
    rewrite <- !app_assoc. split; [reflexivity|].
    apply run_next_page with t p' c' h1; [exact S|exact T|exact FB|].
    now rewrite <- app_assoc in R.
  - intros [= <- <- <-]. exists [Fetch (batch_request self cur); Filter rs].
    rewrite <- app_assoc. split; [reflexivity|].
    now apply run_last_page.
Qed.

(** A run is determined by where it starts. *)
Lemma run_from_unique (src : source) (self : PagePaths) (cur : cursor)
    (p c : loc) (tr0 : list event) (h : heap)
    (res1 res2 : result (loc * loc)) (h1 h2 : heap) (tr1 tr2 : list event) :
  run_from src self cur p c tr0 h res1 h1 tr1 ->
  run_from src self cur p c tr0 h res2 h2 tr2 ->
  res1 = res2 /\ h1 = h2 /\ tr1 = tr2.
Proof.
  intros R1. revert res2 h2 tr2.
  induction R1 as [cur p c tr0 h e S
                  |cur p c tr0 h rs e h' S FB
                  |cur p c tr0 h rs pc h' S T FB
                  |cur p c tr0 h rs t p' c' h1 res h' rest S T FB R IH];
    intros res2 h2 tr2 R2; inversion R2; subst;
    try (rewrite S in *; try discriminate);
    repeat match goal with
           | H : Ok _ = Ok _ |- _ => injection H as ->
           | H : Raise _ = Raise _ |- _ => injection H as ->
           end;
    try (rewrite FB in *; try discriminate);
    try (rewrite T in *; try discriminate);
    repeat match goal with
           | H : (_, _) = (_, _) |- _ => injection H; intros; subst; clear H
           | H : Some _ = Some _ |- _ => injection H as ->
           end;
    try discriminate; auto.
  match goal with
  | H : run_from _ _ _ _ _ _ _ _ _ _ |- _ =>
      apply IH in H as (-> & -> & ->); auto
  end.
Qed.

(** More fuel does not change what the loop returns. *)
Lemma get_loop_more_fuel (src : source) (self : PagePaths) (fuel k : nat) :
  forall cur p c tr0 h x,
    get_loop src self fuel cur p c tr0 h = Some x ->
    get_loop src self (fuel + k) cur p c tr0 h = Some x.
Proof.
  induction fuel as [|fuel IH]; intros cur p c tr0 h x; simpl;
    [discriminate|].
  destruct (src _) as [rs|e]; [|trivial].
  destruct (match get_or (reports rs) [] with [] => _ | _ :: _ => _ end)
    as [more cur'].
  destruct (filter_batch rs (Some p) (Some c) h) as [[[p' c']|e] h1];
    [|trivial].
  destruct more; [apply IH|trivial].
Qed.

(** The loop returns as soon as the fuel covers the fetches up to a page
    without a token or a fetch that fails. *)
Lemma get_loop_terminates (src : source) (self : PagePaths) (fuel : nat) :
  forall cur p c tr0 h,
    last_page_within src self fuel cur (requests_of tr0) = true ->
    exists x, get_loop src self fuel cur p c tr0 h = Some x.
Proof.
  induction fuel as [|fuel IH]; intros cur p c tr0 h; simpl; [discriminate|].
  rewrite requests_of_app. simpl.
  destruct (src _) as [rs|e]; [|eauto].
  unfold token_of.
  destruct (get_or (reports rs) []) as [|rp rps];
    [|destruct (nextPageToken rp) as [t|]];
    destruct (filter_batch rs (Some p) (Some c) h) as [[[p' c']|e] h1];
    eauto.
  intros H. apply IH. rewrite !requests_of_app. simpl.
  now rewrite app_nil_r.
Qed.

(** C8: [get] sends its first request with the page token [0], and a
    request made from a token carries that token as it is.  Whatever [get]
    returns is the outcome, the heap and the events of the run of the
    pagination that starts from the cursor [0] on two new empty lists:
    each page that the source returns is given to [filter_batch], on these
    lists and in the heap that the earlier pages have left, before the next
    request is sent; the next request carries the token of the page's
    first report; the run ends with the first page without a token, whose
    [filter_batch] gives the result, or with the exception of a fetch or
    of a [filter_batch] that raises.  When the first response has no
    token, [get] returns after this one fetch, for any fuel, with exactly
    what [filter_batch] gives for that page on the two new lists.  When
    the first response has a token and its [filter_batch] returns, the
    events go on with the request that carries this token.  [get] returns
    whenever the fuel covers the fetches up to a page without a token; and
    there is one run only, so the fuel does not matter for what is
    returned. *)
Theorem get_pagination (src : source) (self : PagePaths) (h : heap) :
  pageToken (batch_request self (CInt 0)) = lit "0" /\
  (forall t, pageToken (batch_request self (CStr t)) = t) /\
  (forall fuel res h' tr,
      get src self fuel h = Some (res, h', tr) ->
      run_from src self (CInt 0) (next h) (S (next h)) []
               (with_new_lists h) res h' tr /\
      exists tr', tr = Fetch (batch_request self (CInt 0)) :: tr') /\
  (forall fuel rs,
      src [batch_request self (CInt 0)] = Ok rs ->
      token_of rs = None ->
      get src self (S fuel) h
      = let '(res, h') := filter_batch rs (Some (next h)) (Some (S (next h)))
                                       (with_new_lists h) in
        Some (res, h', [Fetch (batch_request self (CInt 0)); Filter rs])) /\
  (forall fuel rs t pc h1 res h' tr,
      src [batch_request self (CInt 0)] = Ok rs ->
      token_of rs = Some t ->
      filter_batch rs (Some (next h)) (Some (S (next h))) (with_new_lists h)
      = (Ok pc, h1) ->
      get src self fuel h = Some (res, h', tr) ->
      exists rest,
        tr = Fetch (batch_request self (CInt 0)) :: Filter rs
             :: Fetch (batch_request self (CStr t)) :: rest) /\
  (forall fuel,
      last_page_within src self fuel (CInt 0) [] = true ->
      exists x, get src self fuel h = Some x) /\
  (forall fuel1 fuel2 x1 x2,
      get src self fuel1 h = Some x1 -> get src self fuel2 h = Some x2 ->
      x1 = x2).
Proof.
  assert (forall fuel res h' tr,
             get src self fuel h = Some (res, h', tr) ->
             run_from src self (CInt 0) (next h) (S (next h)) []
                      (with_new_lists h) res h' tr) as Run.
  { intros fuel res h' tr H. unfold get in H. simpl in H.
    apply get_loop_run in H as (suffix & -> & R). exact R. }
  split; [reflexivity|]. split; [reflexivity|]. split; [|split; [|split]].
  - intros fuel res h' tr H. apply Run in H.
    split; [exact H|]. inversion H; eauto.
  - intros fuel rs S T. unfold get. simpl. rewrite S.
    unfold token_of in T. unfold with_new_lists. simpl.
    destruct (get_or (reports rs) []) as [|rp rps];
      [|rewrite T];
      destruct (filter_batch rs _ _ _) as [[[p' c']|e] h1]; reflexivity.
  - intros fuel rs t pc h1 res h' tr S T FB H. apply Run in H.
    inversion H as [? ? ? ? ? e S'
                   |? ? ? ? ? rs' e h2 S' FB'
                   |? ? ? ? ? rs' pc' h2 S' T' FB'
                   |? ? ? ? ? rs' t' p' c' h2 ? ? rest S' T' FB' R];
      subst; simpl in S'; rewrite S in S'; try discriminate;
      injection S' as <-.
    + pose proof (eq_trans (eq_sym FB) FB') as X. discriminate.
    + pose proof (eq_trans (eq_sym T) T') as X. discriminate.
    + pose proof (eq_trans (eq_sym T) T') as X. injection X as <-.
      inversion R; subst; eauto.
  - split.
    + intros fuel H. unfold get. simpl. now apply get_loop_terminates.
    + intros fuel1 fuel2 [[res1 h1] tr1] [[res2 h2] tr2] H1 H2.
      apply Run in H1. apply Run in H2.
      destruct (run_from_unique _ _ _ _ _ _ _ _ _ _ _ _ _ H1 H2)
        as (-> & -> & ->).
      reflexivity.
Qed.

Lemma get_loop_observed (src : source) (self : PagePaths) (fuel : nat) :
  forall cur tr0 p c h p2 c2 h2,
    p <> c -> p2 <> c2 ->
    cells h p = cells h2 p2 -> cells h c = cells h2 c2 ->
    observed (get_loop src self fuel cur p c tr0 h)
    = observed (get_loop src self fuel cur p2 c2 tr0 h2).
Proof.
  induction fuel as [|fuel IH]; intros cur tr0 p c h p2 c2 h2 Hpc Hpc2 Ep Ec;
    simpl; [reflexivity|].
  destruct (src _) as [rs|e]; [|reflexivity].
  destruct (match get_or (reports rs) [] with [] => _ | _ :: _ => _ end)
    as [more cur'].
  destruct (filter_batch_lists rs p c h Hpc)
    as (out & h' & -> & (u & L & ->) & _ & _).
  destruct (filter_batch_lists rs p2 c2 h2 Hpc2)
    as (out2 & h2' & -> & (u2 & L2 & ->) & _ & _).
  rewrite Ep, Ec, L2 in L. injection L as -> Ep' Ec'.
  destruct u as [[]|e]; [|reflexivity].
  destruct more; [now apply IH|]. simpl. now rewrite Ep', Ec'.
Qed.

(** [get] makes its two lists itself, so what it returns does not depend
    on the heap it is started in, in particular not on earlier calls of
    [get] or of [filter_batch]. *)
Lemma get_independent_of_heap (src : source) (self : PagePaths)
    (fuel : nat) (h1 h2 : heap) :
  observed (get src self fuel h1) = observed (get src self fuel h2).
Proof.
  unfold get. simpl. apply get_loop_observed; simpl;
    rewrite ?Nat.eqb_refl; try lia.
  all: now destruct (Nat.eqb_spec (next h1) (S (next h1))) as [E|_];
    [lia|]; destruct (Nat.eqb_spec (next h2) (S (next h2))) as [E|_]; [lia|].
Qed.

(** ** Built-ins *)

Lemma str_contains_char (c : char) (s : str) :
  str_contains [c] s = true <-> In c s.
Proof.
  unfold str_contains, find.
  destruct (find_from_char c s 0%Z ltac:(lia))
    as [(H1 & _ & H3)|(n & H1 & _ & H3)]; rewrite H1.
  - simpl. split; [discriminate|tauto].
  - destruct (Z.eqb_spec (0 + Z.of_nat n) (-1)); [lia|]. simpl. tauto.
Qed.

Lemma in_ranges_spec (rs : list (N * N)) (c : char) :
  in_ranges rs c = true <->
  exists lo hi, In (lo, hi) rs /\ (lo <= c <= hi)%N.
Proof.
  unfold in_ranges. rewrite existsb_exists. split.
  - intros ([lo hi] & Hin & H). simpl in H.
    apply andb_true_iff in H as [H1 H2].
    apply N.leb_le in H1. apply N.leb_le in H2. eauto.
  - intros (lo & hi & Hin & H1 & H2). exists (lo, hi). simpl.
    split; [exact Hin|]. apply andb_true_iff. now rewrite !N.leb_le.
Qed.

Lemma ranges_apart_spec (rs1 rs2 : list (N * N)) (c : char) :
  ranges_apart rs1 rs2 = true ->
  in_ranges rs1 c = true -> in_ranges rs2 c = false.
Proof.
  intros A H1. destruct (in_ranges rs2 c) eqn:H2; [|reflexivity].
  apply in_ranges_spec in H1 as (lo1 & hi1 & I1 & B1).
  apply in_ranges_spec in H2 as (lo2 & hi2 & I2 & B2).
  unfold ranges_apart in A. rewrite forallb_forall in A.
  specialize (A _ I1). rewrite forallb_forall in A. specialize (A _ I2).
  simpl in A. apply orb_true_iff in A as [A|A]; apply N.ltb_lt in A; lia.
Qed.

Lemma decimal_in_ranges (rs : list (N * N)) (c : char) :
  decimal_in rs c = None <-> in_ranges rs c = false.
Proof.
  induction rs as [|[lo hi] rs IH]; simpl; [tauto|].
  destruct ((lo <=? c)%N && (c <=? hi)%N); simpl; [|exact IH].
  split; discriminate.
Qed.

(** A digit that is not a decimal digit is in the second table, is not
    below 127, and is not white space. *)
Lemma digit_only_char (c : char) :
  is_digit_char c = true -> decimal_value c = None ->
  (c <? 127)%N = false /\ is_space_char c = false.
Proof.
  unfold is_digit_char, is_decimal_char. intros D V. rewrite V in D.
  rewrite orb_false_l in D. split.
  - apply in_ranges_spec in D as (lo & hi & I & B).
    apply N.ltb_ge. simpl in I.
    repeat (destruct I as [[= <- <-]|I]; [lia|]). contradiction.
  - now apply (ranges_apart_spec digit_only_ranges space_ranges).
Qed.

Lemma isdigit_no_dot (x : str) :
  isdigit x = true -> str_contains (lit ".") x = false.
Proof.
  intros H. destruct (str_contains (lit ".") x) eqn:E; [|reflexivity].
  change (lit ".") with (@cons char 46%N []) in E.
  apply str_contains_char in E.
  destruct x as [|c x]; [discriminate|]. unfold isdigit in H.
  rewrite forallb_forall in H. now apply H in E.
Qed.

(** The branch of [float] is never taken: no outcome of
    [_maybe_to_number] is a floating-point number. *)
Lemma _maybe_to_number_never_float (x y : str) :
  _maybe_to_number x <> Ok (VFloat y).
Proof.
  unfold _maybe_to_number. destruct (isdigit x) eqn:D; [|discriminate].
  rewrite (isdigit_no_dot x D). destruct (int_of x); discriminate.
Qed.

(** A field that starts with a minus sign stays a string. *)
Lemma _maybe_to_number_signed (x : str) :
  _maybe_to_number (45%N :: x) = Ok (VStr (45%N :: x)).
Proof. reflexivity. Qed.

Lemma ascii_digit_cases (c : char) :
  (48 <=? c)%N && (c <=? 57)%N = true ->
  In c [48; 49; 50; 51; 52; 53; 54; 55; 56; 57]%N.
Proof.
  intros H. apply andb_true_iff in H as [H1 H2].
  apply N.leb_le in H1. apply N.leb_le in H2. simpl.
  assert (c = 48 \/ c = 49 \/ c = 50 \/ c = 51 \/ c = 52 \/ c = 53 \/
          c = 54 \/ c = 55 \/ c = 56 \/ c = 57)%N as C by lia.
  intuition.
Qed.

Lemma scan_ascii_digits (x : str) (acc : Z) (n : nat) :
  ascii_digits x = true ->
  scan_digits x false acc n
  = Some (fold_left (fun a c => (10 * a + Z.of_N (c - 48))%Z) x acc,
          n + length x, []).
Proof.
  revert acc n. induction x as [|c x IH]; intros acc n; simpl.
  - intros _. now rewrite Nat.add_0_r.
  - intros H. apply andb_true_iff in H as [Hc Hx].
    unfold ascii_digit. rewrite Hc.
    replace (c =? 95)%N with false.
    + rewrite IH by exact Hx. do 3 f_equal. lia.
    + symmetry. apply N.eqb_neq. apply andb_true_iff in Hc as [H1 H2].
      apply N.leb_le in H1. apply N.leb_le in H2. lia.
Qed.

Lemma to_ascii_decimal_ascii (x : str) :
  ascii_digits x = true -> to_ascii_decimal x = x.
Proof.
  induction x as [|c x IH]; simpl; [reflexivity|]. intros H.
  apply andb_true_iff in H as [Hc Hx]. rewrite IH by exact Hx.
  apply andb_true_iff in Hc as [H1 H2].
  apply N.leb_le in H1. apply N.leb_le in H2.
  destruct (N.ltb_spec c 127); [reflexivity|lia].
Qed.

Lemma isdigit_ascii_digits (x : str) :
  x <> [] -> ascii_digits x = true -> isdigit x = true.
Proof.
  intros Hne H. destruct x as [|c x]; [contradiction|]. unfold isdigit.
  unfold ascii_digits in H. rewrite forallb_forall in *.
  intros d Hd. apply H in Hd. unfold is_digit_char, is_decimal_char,
    decimal_value, decimal_ranges, decimal_in.
  change (0x30 <=? d)%N with (48 <=? d)%N.
  change (d <=? 0x39)%N with (d <=? 57)%N.
  now rewrite Hd.
Qed.

(** [int] on a non-empty text of ASCII digits: the number that the text
    denotes, unless the text has more digits than the limit. *)
Lemma py_int_ascii_digits (x : str) :
  x <> [] -> ascii_digits x = true ->
  py_int x = if (max_str_digits <? N.of_nat (length x))%N then None
             else Some (digits_value x).
Proof.
  intros Hne H. unfold py_int.
  rewrite (to_ascii_decimal_ascii x H).
  destruct x as [|c x]; [contradiction|].
  pose proof (scan_ascii_digits (c :: x) 0 0 H) as S.
  change (0 + length (c :: x)) with (Datatypes.S (length x)) in S.
  simpl in H. apply andb_true_iff in H as [Hc _].
  apply ascii_digit_cases in Hc. simpl in Hc.
  repeat (destruct Hc as [<-|Hc];
          [cbn [skip_spaces c_isspace N.leb N.eqb Pos.eqb andb orb N.compare
                Pos.compare Pos.compare_cont]; rewrite S;
           cbn [length]; destruct (_ <? _)%N; reflexivity|]).
  contradiction.
Qed.

(** A non-empty field of ASCII digits, of at most as many digits as the
    limit allows, is returned as the integer that it denotes. *)
Lemma _maybe_to_number_ascii_digits (x : str) :
  x <> [] -> ascii_digits x = true ->
  (N.of_nat (length x) <= max_str_digits)%N ->
  _maybe_to_number x = Ok (VInt (digits_value x)).
Proof.
  intros Hne H L. unfold _maybe_to_number.
  pose proof (isdigit_ascii_digits x Hne H) as D.
  rewrite D, (isdigit_no_dot x D). unfold int_of.
  rewrite (py_int_ascii_digits x Hne H).
  destruct (N.ltb_spec max_str_digits (N.of_nat (length x))); [lia|].
  reflexivity.
Qed.

(** With more digits than the limit allows, it raises. *)
Lemma _maybe_to_number_over_limit (x : str) :
  ascii_digits x = true ->
  (max_str_digits < N.of_nat (length x))%N ->
  _maybe_to_number x = Raise ValueError.
Proof.
  intros H L. unfold _maybe_to_number.
  assert (x <> []) as Hne by (intros ->; simpl in L; lia).
  pose proof (isdigit_ascii_digits x Hne H) as D.
  rewrite D, (isdigit_no_dot x D). unfold int_of.
  rewrite (py_int_ascii_digits x Hne H).
  destruct (N.ltb_spec max_str_digits (N.of_nat (length x))); [|lia].
  reflexivity.
Qed.

(** ** read and write *)

Lemma read_written (data : list item) (name : str) (is_flat : bool)
    (fs : files) :
  read name is_flat (write data name fs)
  = let '(recs, err) :=
      reader_records reader_reset
        (file_lines (flat_map (fun it => writerow (item_row it)) data)) in
    read_records is_flat recs err.
Proof.
  unfold read, write, write_file. now rewrite str_eqb_refl.
Qed.

Lemma map_result_raises {A B} (f : A -> result B) (l : list A) (a : A)
    (e : exn) :
  In a l -> f a = Raise e -> exists e', map_result f l = Raise e'.
Proof.
  induction l as [|b l IH]; simpl; [tauto|]. intros [->|H] Ha.
  - rewrite Ha. eauto.
  - destruct (f b); [|eauto]. destruct (IH H Ha) as [e' ->]. eauto.
Qed.

Lemma read_records_raises (is_flat : bool) (recs : list (list str))
    (err : option exn) (record : list str) (e : exn) :
  In record recs -> read_record is_flat record = Raise e ->
  exists e', read_records is_flat recs err = Raise e'.
Proof.
  induction recs as [|r recs IH]; simpl; [tauto|]. intros [->|H] Hr.
  - rewrite Hr. eauto.
  - destruct (read_record is_flat r); [|eauto].
    destruct (IH H Hr) as [e' ->]. eauto.
Qed.

(** C1 (the code at the failing input): the row of the three strings 3,
    /a/ and 2.5, written and read back as a list of fields, comes back as
    the integer 3, the string /a/ and the string 2.5: the field with the
    decimal point is not returned as a floating-point number, because
    [isdigit] does not hold for a text with a point. *)
Theorem read_keeps_fraction_as_string (name : str) (fs : files) :
  read name false
       (write [Row [CellStr (lit "3"); CellStr (lit "/a/");
                    CellStr (lit "2.5")]] name fs)
  = Ok [Fields [VInt 3; VStr (lit "/a/"); VStr (lit "2.5")]] /\
  isdigit (lit "2.5") = false /\
  _maybe_to_number (lit "2.5") = Ok (VStr (lit "2.5")).
Proof. rewrite read_written. repeat split. Qed.

(** C10: for a non-empty field made only of digit characters that are not
    decimal digits, such as the superscript two, [isdigit] holds and [int]
    fails, so [_maybe_to_number] raises [ValueError]; and [read] raises,
    rather than returning data, on every file in which such a field is the
    first field of a record (when reading flat) or any field of a record
    (otherwise). *)
Theorem digit_only_field_raises (x : str) :
  x <> [] ->
  (forall c, In c x -> is_digit_char c = true /\ decimal_value c = None) ->
  isdigit x = true /\
  py_int x = None /\
  _maybe_to_number x = Raise ValueError /\
  forall name fs text is_flat recs err record,
    fs (csv_name name) = Some text ->
    reader_records reader_reset (file_lines text) = (recs, err) ->
    In record recs ->
    (if is_flat : bool then nth_error record 0 = Some x else In x record) ->
    exists e, read name is_flat fs = Raise e.
Proof.
  intros Hne Hx.
  assert (isdigit x = true) as D.
  { destruct x as [|c x]; [contradiction|]. unfold isdigit.
    apply forallb_forall. intros d Hd. now apply Hx. }
  assert (py_int x = None) as I.
  { destruct x as [|c x]; [contradiction|].
    destruct (Hx c (or_introl eq_refl)) as [Dc Vc].
    destruct (digit_only_char c Dc Vc) as [Lc Sc].
    unfold py_int. simpl. now rewrite Lc, Sc, Vc. }
  assert (_maybe_to_number x = Raise ValueError) as R.
  { unfold _maybe_to_number, int_of.
    now rewrite D, (isdigit_no_dot x D), I. }
  repeat split; try assumption.
  intros name fs text is_flat recs err record Hfs Hrecs Hin Hfield.
  unfold read. rewrite Hfs, Hrecs.
  assert (exists e, read_record is_flat record = Raise e) as [e E].
  { unfold read_record. destruct is_flat.
    - unfold subscript. rewrite Hfield, R. eauto.
    - destruct (map_result_raises _maybe_to_number record x ValueError
                                  Hfield R) as [e' E].
      rewrite E. eauto. }
  now apply read_records_raises with record e.
Qed.

(** ** The csv round trip of plain fields *)

Lemma plain_char_spec (c : char) :
  plain_char c = true ->
  (c =? delimiter)%N = false /\ (c =? quotechar)%N = false /\
  is_newline c = false.
Proof.
  unfold plain_char, needs_quotes, is_newline, lineterminator. simpl.
  destruct (c =? delimiter)%N, (c =? quotechar)%N, (c =? CR)%N, (c =? LF)%N;
    simpl; intros H; try discriminate; auto.
Qed.

Lemma join_append_plain (s : str) :
  forallb plain_char s = true -> join_append s false = s.
Proof.
  intros H. unfold join_append.
  replace (existsb needs_quotes s) with false; [reflexivity|].
  symmetry. induction s as [|c s IH]; simpl in *; [reflexivity|].
  apply andb_true_iff in H as [Hc Hs]. rewrite (IH Hs).
  unfold plain_char in Hc. now destruct (needs_quotes c).
Qed.

Lemma join_fields_plain (texts : list str) :
  forallb plain_field texts = true -> join_fields texts = join_plain texts.
Proof.
  induction texts as [|f texts IH]; simpl; [reflexivity|]. intros H.
  apply andb_true_iff in H as [Hf Ht].
  apply andb_true_iff in Hf as [Hf _].
  rewrite (join_append_plain f Hf).
  destruct texts as [|g texts]; [reflexivity|]. now rewrite IH.
Qed.

(** Feeding the parser a plain text while it is in a field. *)
Lemma parse_line_in_field (s rest : str) :
  forall fs buf n,
    forallb plain_char s = true ->
    (n + N.of_nat (length s) <= field_limit)%N ->
    parse_line {| state := IN_FIELD; fields := fs; field := buf;
                  field_len := n |} (s ++ rest)
    = parse_line {| state := IN_FIELD; fields := fs; field := rev s ++ buf;
                    field_len := n + N.of_nat (length s) |} rest.
Proof.
  induction s as [|c s IH]; intros fs buf n Hs Hn.
  - simpl. now rewrite N.add_0_r.
  - apply andb_true_iff in Hs as [Hc Hs].
    destruct (plain_char_spec c Hc) as (D & Q & NL).
    cbn [app parse_line]. unfold parse_process_char at 1.
    cbn [state]. rewrite NL, D. unfold parse_add_char. cbn [field_len].
    cbn [length] in Hn.
    destruct (N.leb_spec field_limit n); [lia|].
    cbn [fields field]. rewrite IH by (auto; lia).
    replace (n + N.of_nat (length (c :: s)))%N
      with (n + 1 + N.of_nat (length s))%N by (cbn [length]; lia).
    cbn [rev]. now rewrite <- (app_assoc (rev s) [c] buf).
Qed.

(** Feeding the parser a plain field at the start of a field. *)
Lemma parse_line_field (s rest : str) (done : list str) :
  forallb plain_char s = true ->
  (N.of_nat (length s) <= field_limit)%N ->
  parse_line (reader_at START_FIELD done) (s ++ rest)
  = match s with
    | [] => parse_line (reader_at START_FIELD done) rest
    | _ :: _ =>
        parse_line {| state := IN_FIELD; fields := done; field := rev s;
                      field_len := N.of_nat (length s) |} rest
    end.
Proof.
  destruct s as [|c s]; [reflexivity|]. intros Hs Hn.
  apply andb_true_iff in Hs as [Hc Hs].
  destruct (plain_char_spec c Hc) as (D & Q & NL).
  cbn [app parse_line]. unfold parse_process_char at 1.
  cbn [state reader_at start_field]. rewrite NL, Q, D.
  unfold parse_add_char, reader_at. cbn [field_len fields field].
  change (field_limit <=? 0)%N with false. cbv iota.
  cbn [length] in Hn.
  rewrite parse_line_in_field by (auto; lia).
  replace (0 + 1 + N.of_nat (length s))%N
    with (N.of_nat (length (c :: s))) by (cbn [length]; lia).
  reflexivity.
Qed.

Lemma parse_line_fields (texts : list str) :
  forall done,
    texts <> [] ->
    forallb plain_field texts = true ->
    parse_line (reader_at START_FIELD done) (join_plain texts ++ [LF])
    = Ok (reader_at START_RECORD (done ++ texts)).
Proof.
  induction texts as [|f texts IH]; intros done Hne H; [contradiction|].
  cbn [forallb] in H. apply andb_true_iff in H as [Hf Ht].
  apply andb_true_iff in Hf as [Hc Hl]. apply N.leb_le in Hl.
  destruct texts as [|g texts].
  - cbn [join_plain]. rewrite parse_line_field by assumption.
    destruct f as [|c f]; [reflexivity|].
    cbn [parse_line]. unfold parse_process_char at 1. cbn [state].
    change (is_newline LF) with true. cbv iota.
    unfold parse_save_field. cbn [fields field].
    rewrite rev_involutive. reflexivity.
  - change (join_plain (f :: g :: texts))
      with (f ++ [delimiter] ++ join_plain (g :: texts)).
    rewrite <- !app_assoc. rewrite parse_line_field by assumption.
    replace (done ++ f :: g :: texts) with ((done ++ [f]) ++ g :: texts)
      by now rewrite <- app_assoc.
    rewrite <- (IH (done ++ [f])) by (auto; discriminate).
    destruct f as [|c f]; [reflexivity|].
    cbn [app parse_line]. unfold parse_process_char at 1. cbn [state].
    change (is_newline delimiter) with false.
    change (delimiter =? delimiter)%N with true. cbv iota.
    unfold parse_save_field. cbn [fields field].
    rewrite rev_involutive. reflexivity.
Qed.

Lemma parse_line_from_reset (c : char) (l : str) :
  is_newline c = false ->
  parse_line reader_reset (c :: l)
  = parse_line (reader_at START_FIELD []) (c :: l).
Proof.
  intros H. cbn [parse_line]. unfold parse_process_char.
  cbn [state reader_reset reader_at]. now rewrite H.
Qed.

Lemma plain_field_chars (f : str) (c : char) :
  plain_field f = true -> In c f -> plain_char c = true.
Proof.
  intros H Hc. apply andb_true_iff in H as [H _].
  rewrite forallb_forall in H. now apply H.
Qed.

(** The characters of the text of a record: plain characters,
    delimiters and quotes, so neither CR nor LF. *)
Lemma join_plain_chars (texts : list str) (c : char) :
  forallb plain_field texts = true ->
  In c (join_plain texts) -> plain_char c = true \/ c = delimiter.
Proof.
  induction texts as [|f texts IH]; [contradiction|]. intros H.
  cbn [forallb] in H. apply andb_true_iff in H as [Hf Ht].
  destruct texts as [|g texts].
  - cbn [join_plain]. intros Hc. left. eapply plain_field_chars; eassumption.
  - change (join_plain (f :: g :: texts))
      with (f ++ [delimiter] ++ join_plain (g :: texts)).
    rewrite !in_app_iff. intros [Hc|[[<-|[]]|Hc]]; auto.
    left. eapply plain_field_chars; eassumption.
Qed.

Lemma record_text_chars (texts : list str) (c : char) :
  forallb plain_field texts = true ->
  In c (record_text texts) -> is_newline c = false.
Proof.
  intros H Hc.
  assert (plain_char c = true \/ c = delimiter \/ c = quotechar) as C.
  { unfold record_text in Hc. destruct texts as [|f texts].
    - destruct Hc.
    - destruct (join_plain (f :: texts)) eqn:E.
      + destruct Hc as [<-|[<-|[]]]; auto.
      + rewrite <- E in Hc.
        destruct (join_plain_chars (f :: texts) c H Hc); auto. }
  destruct C as [C|[->| ->]]; [|reflexivity..].
  now apply plain_char_spec in C.
Qed.

Lemma parse_record_text (texts : list str) :
  forallb plain_field texts = true ->
  parse_line reader_reset (record_text texts ++ [LF])
  = Ok (reader_at START_RECORD texts).
Proof.
  intros H. destruct texts as [|f texts]; [reflexivity|].
  unfold record_text. destruct (join_plain (f :: texts)) as [|c l] eqn:E.
  - destruct texts as [|g texts].
    + cbn [join_plain] in E. subst f. reflexivity.
    + change (join_plain (f :: g :: texts))
        with (f ++ [delimiter] ++ join_plain (g :: texts)) in E.
      apply app_eq_nil in E as [_ E]. discriminate.
  - assert (is_newline c = false) as NL.
    { apply (record_text_chars (f :: texts) c H). unfold record_text.
      rewrite E. now left. }
    cbn [app]. rewrite parse_line_from_reset by exact NL.
    change (c :: l ++ [LF]) with ((c :: l) ++ [LF]). rewrite <- E.
    now rewrite parse_line_fields.
Qed.

Lemma writerow_plain (cells : list cell) :
  forallb plain_field (map field_text cells) = true ->
  writerow cells = record_text (map field_text cells) ++ lineterminator.
Proof.
  intros H. unfold writerow, record_text. rewrite (join_fields_plain _ H).
  destruct cells as [|c cells]; [reflexivity|]. cbn [map].
  destruct (join_plain (field_text c :: map field_text cells)); reflexivity.
Qed.

Lemma is_newline_spec (c : char) :
  is_newline c = false <-> c <> LF /\ c <> CR.
Proof.
  unfold is_newline. rewrite orb_false_iff, !N.eqb_neq. tauto.
Qed.

Lemma universal_newlines_line (l rest : str) :
  ~ In CR l ->
  universal_newlines (l ++ CR :: LF :: rest)
  = l ++ LF :: universal_newlines rest.
Proof.
  induction l as [|c l IH]; intros H; [reflexivity|].
  cbn [app universal_newlines].
  destruct (N.eqb_spec c CR) as [->|_]; [exfalso; apply H; now left|].
  rewrite IH; [reflexivity|]. intros Hin. apply H. now right.
Qed.

Lemma split_lines_line (l rest : str) :
  forall cur,
    ~ In LF l ->
    split_lines cur (l ++ LF :: rest)
    = (rev cur ++ l ++ [LF]) :: split_lines [] rest.
Proof.
  induction l as [|c l IH]; intros cur H.
  - reflexivity.
  - cbn [app split_lines].
    destruct (N.eqb_spec c LF) as [->|_]; [exfalso; apply H; now left|].
    rewrite IH by (intros Hin; apply H; now right).
    cbn [rev]. now rewrite <- app_assoc.
Qed.

(** The lines of a file of plain records: one line per record. *)
Lemma file_lines_plain (rows : list (list cell)) :
  forallb (fun r => forallb plain_field (map field_text r)) rows = true ->
  file_lines (flat_map writerow rows)
  = map (fun r => record_text (map field_text r) ++ [LF]) rows.
Proof.
  unfold file_lines. induction rows as [|r rows IH]; intros H;
    [reflexivity|].
  cbn [forallb] in H. apply andb_true_iff in H as [Hr Hrows].
  cbn [flat_map map]. rewrite (writerow_plain r Hr).
  unfold lineterminator. rewrite <- app_assoc. cbn [app].
  assert (forall c, In c (record_text (map field_text r)) ->
                    c <> LF /\ c <> CR) as Hc.
  { intros c Hin. apply is_newline_spec.
    eapply record_text_chars; eassumption. }
  rewrite universal_newlines_line by (intros Hin; now apply Hc in Hin).
  rewrite split_lines_line by (intros Hin; now apply Hc in Hin).
  cbn [rev app]. now rewrite IH.
Qed.

Lemma reader_records_plain (texts : list (list str)) :
  forallb (forallb plain_field) texts = true ->
  reader_records reader_reset (map (fun t => record_text t ++ [LF]) texts)
  = (texts, None).
Proof.
  induction texts as [|t texts IH]; intros H; [reflexivity|].
  cbn [forallb] in H. apply andb_true_iff in H as [Ht Htexts].
  cbn [map reader_records]. rewrite (parse_record_text t Ht).
  cbn [reader_at state is_start_record fields]. now rewrite IH.
Qed.

Lemma forallb_through_map {A B} (f : B -> bool) (g : A -> B) (l : list A) :
  forallb f (map g l) = forallb (fun a => f (g a)) l.
Proof.
  induction l as [|a l IH]; simpl; [reflexivity|]. now rewrite IH.
Qed.

(** Writing data whose fields all are plain and reading it back: the
    reader yields, record by record, the texts of the fields that were
    written, and [read] converts them with [_maybe_to_number]. *)
Theorem read_write_plain (data : list item) (name : str) (is_flat : bool)
    (fs : files) :
  forallb plain_item data = true ->
  read name is_flat (write data name fs)
  = read_records is_flat (map row_texts data) None.
Proof.
  intros H. rewrite read_written.
  replace (flat_map (fun it => writerow (item_row it)) data)
    with (flat_map writerow (map item_row data))
    by (clear H; induction data as [|it data IH]; [reflexivity|];
        cbn [flat_map map]; now rewrite IH).
  rewrite file_lines_plain by (now rewrite forallb_through_map).
  rewrite <- (map_map (map field_text) (fun t => record_text t ++ [LF])).
  rewrite reader_records_plain by (now rewrite !forallb_through_map).
  now rewrite map_map.
Qed.

(** ** The theorems at sample data *)

Lemma malformed_row_skipped_witness :
  malformed row_two_dimensions /\
  (forall p c h, ingest_row p c row_two_dimensions h = (Ok tt, h)).
Proof.
  assert (malformed row_two_dimensions) as H by (left; simpl; lia).
  split; [exact H|].
  exact (proj1 (malformed_row_skipped row_two_dimensions H)).
Defined.



Lemma missing_metric_raises_after_append_witness :
  exists h',
    filter_batch (sample_response (rows_cd ++ [row_without_metrics]) None)
                 (Some default_paths) (Some default_connections) initial_heap
    = (Raise IndexError, h') /\
    In (EStr (lit "/a/")) (cells h' default_paths) /\
    In (EStr (lit "/b/")) (cells h' default_paths).
Proof.
  destruct (missing_metric_raises_after_append
              (sample_response (rows_cd ++ [row_without_metrics]) None)
              default_paths default_connections initial_heap
              (snd (for_each (ingest_row default_paths default_connections)
                             rows_cd initial_heap))
              rows_cd [] row_without_metrics
              (lit "/a/") (lit "/b/") (lit "/a/") (lit "/b/"))
    as (h' & H1 & _ & H2 & H3 & _).
  - reflexivity.
  - reflexivity.
  - reflexivity.
  - reflexivity.
  - reflexivity.
  - reflexivity.
  - discriminate.
  - left. reflexivity.
  - exists h'. repeat split; assumption.
Defined.

Lemma get_pagination_witness :
  (exists res h' tr,
      get two_pages sample_self 2 initial_heap = Some (res, h', tr) /\
      run_from two_pages sample_self (CInt 0) 2 3 []
               (with_new_lists initial_heap) res h' tr) /\
  get one_page sample_self 1 initial_heap
  = (let '(res, h') := filter_batch (sample_response rows_ab_ac None)
                                    (Some 2) (Some 3)
                                    (with_new_lists initial_heap) in
     Some (res, h', [Fetch (batch_request sample_self (CInt 0));
                     Filter (sample_response rows_ab_ac None)])) /\
  (exists rest,
      snd (match get two_pages sample_self 2 initial_heap with
           | Some x => x
           | None => (Raise FetchError, initial_heap, [])
           end)
      = Fetch (batch_request sample_self (CInt 0))
        :: Filter (sample_response rows_ab_ac (Some (lit "1000")))
        :: Fetch (batch_request sample_self (CStr (lit "1000"))) :: rest) /\
  (exists x, get two_pages sample_self 2 initial_heap = Some x).
Proof.
  destruct (get_pagination two_pages sample_self initial_heap)
    as (_ & _ & Run & _ & Next & Terminates & _).
  destruct (get_pagination one_page sample_self initial_heap)
    as (_ & _ & _ & Once & _).
  split; [|split; [|split]].
  - destruct (Terminates 2 eq_refl) as [[[res h'] tr] E].
    exists res, h', tr. split; [exact E|]. exact (proj1 (Run 2 res h' tr E)).
  - exact (Once 0 (sample_response rows_ab_ac None) eq_refl eq_refl).
  - destruct (Terminates 2 eq_refl) as [[[res h'] tr] E]. rewrite E.
    exact (Next 2 (sample_response rows_ab_ac (Some (lit "1000")))
                (lit "1000")
                (2, 3)
                (snd (filter_batch
                        (sample_response rows_ab_ac (Some (lit "1000")))
                        (Some 2) (Some 3) (with_new_lists initial_heap)))
                res h' tr eq_refl eq_refl eq_refl E).
  - exact (Terminates 2 eq_refl).
Defined.

Lemma digit_only_field_raises_witness :
  [0xb2%N] <> [] /\
  (forall c, In c [0xb2%N] ->
             is_digit_char c = true /\ decimal_value c = None) /\
  _maybe_to_number [0xb2%N] = Raise ValueError /\
  exists e,
    read (lit "paths") true
         (write [Scalar (CellStr (lit "/a/")); Scalar (CellStr [0xb2%N])]
                (lit "paths") (fun _ => None))
    = Raise e.
Proof.
  assert ([0xb2%N] <> @nil char) as H1 by discriminate.
  assert (forall c, In c [0xb2%N] ->
                    is_digit_char c = true /\ decimal_value c = None) as H2.
  { intros c [<-|[]]. split; reflexivity. }
  destruct (digit_only_field_raises [0xb2%N] H1 H2) as (_ & _ & H3 & H4).
  repeat split; try assumption.
  - now apply H2.
  - now apply H2.
  - eapply H4 with (record := [[0xb2%N]]);
      [reflexivity|reflexivity|right; now left|reflexivity].
Defined.

(** * Further properties of the code *)

(** ** filter_path *)

Lemma before_split (c : char) (s : str) :
  exists rest, s = before c s ++ rest /\ (rest = [] \/ exists t, rest = c :: t).
Proof.
  induction s as [|y s (rest & E & R)]; simpl.
  - exists []. auto.
  - destruct (N.eqb_spec c y) as [->|_].
    + exists (y :: s). split; [reflexivity|]. right. now exists s.
    + exists rest. split; [|exact R]. simpl. now rewrite <- E.
Qed.

Lemma before_app (c : char) (p q : str) :
  ~ In c p -> before c (p ++ c :: q) = p.
Proof.
  induction p as [|y p IH]; simpl; intros H.
  - now rewrite N.eqb_refl.
  - destruct (N.eqb_spec c y) as [->|_]; [tauto|]. f_equal. apply IH. tauto.
Qed.

Lemma startswith_before_char (pre p q : str) (c : char) :
  ~ In c pre -> startswith pre (p ++ c :: q) = startswith pre p.
Proof.
  revert p. induction pre as [|x pre IH]; intros p H; [reflexivity|].
  destruct p as [|y p]; simpl.
  - destruct (N.eqb_spec x c) as [->|_]; [|reflexivity].
    exfalso. apply H. now left.
  - f_equal. apply IH. intros Hin. apply H. now right.
Qed.

(** X1: a path that [filter_path] returns is the input up to its first
    question mark, followed by nothing, one slash or two slashes; it has
    no question mark and ends with a slash. *)
Theorem filter_path_shape (p r : str) :
  filter_path p = Some r ->
  exists q rest slashes,
    p = q ++ rest /\
    ~ In 63%N q /\
    (rest = [] \/ exists t, rest = 63%N :: t) /\
    r = q ++ slashes /\
    (slashes = [] \/ slashes = lit "/" \/ slashes = lit "//") /\
    ~ In 63%N r /\
    endswith (lit "/") r = true.
Proof.
  rewrite filter_path_eq. destruct (_ || _); [discriminate|].
  intros [= <-]. destruct (before_split 63%N p) as (rest & E & R).
  pose proof (before_no_char 63%N p) as Hq.
  destruct (close_cases (before 63%N p)) as [C | [C | C]].
  - exists (before 63%N p), rest, []. rewrite app_nil_r.
    repeat split; auto using close_ends_with_slash, close_no_query.
  - exists (before 63%N p), rest, (lit "/").
    repeat split; auto using close_ends_with_slash, close_no_query.
  - exists (before 63%N p), rest, (lit "//").
    rewrite <- app_assoc in C.
    repeat split; auto using close_ends_with_slash, close_no_query.
Qed.

Lemma filter_path_shape_witness :
  filter_path (lit "/shop/item?id=7&ref=a") = Some (lit "/shop/item/") /\
  ~ In 63%N (lit "/shop/item/").
Proof.
  split; [reflexivity|].
  destruct (filter_path_shape (lit "/shop/item?id=7&ref=a")
                              (lit "/shop/item/") eq_refl)
    as (q & rest & slashes & _ & _ & _ & _ & _ & H & _).
  exact H.
Defined.

(** X2: [filter_path] returns [None] exactly for the inputs that start
    with [http] or with [/http]; every other string, the empty one
    included, has a normal form. *)
Theorem filter_path_rejects_exactly_urls (p : str) :
  filter_path p = None <->
  startswith (lit "http") p = true \/ startswith (lit "/http") p = true.
Proof.
  rewrite filter_path_eq.
  destruct (startswith (lit "/http") p), (startswith (lit "http") p);
    simpl; split; auto; try discriminate; intros [H|H]; discriminate.
Qed.

(** X3: the query string does not matter: a string without a question
    mark, followed by a question mark and anything, is normalised like the
    string alone. *)
Theorem filter_path_ignores_query (p q : str) :
  ~ In 63%N p ->
  filter_path (p ++ 63%N :: q) = filter_path p.
Proof.
  intros H. rewrite !filter_path_eq.
  rewrite !startswith_before_char by (simpl; intuition discriminate).
  rewrite before_app by exact H. now rewrite before_id by exact H.
Qed.

Lemma filter_path_ignores_query_witness :
  ~ In 63%N (lit "/a/b") /\
  filter_path (lit "/a/b?x=1?y=2") = filter_path (lit "/a/b").
Proof.
  assert (~ In 63%N (lit "/a/b")) as H
    by (intros [E|[E|[E|[E|[]]]]]; discriminate).
  split; [exact H|].
  exact (filter_path_ignores_query (lit "/a/b") (lit "x=1?y=2") H).
Defined.

(** X4: on a valid input that starts with a slash, [filter_path] returns a
    path that starts and ends with a slash, and normalising that path
    again returns it unchanged. *)
Theorem filter_path_on_rooted_input (p r : str) :
  startswith (lit "/") p = true ->
  filter_path p = Some r ->
  startswith (lit "/") r = true /\
  endswith (lit "/") r = true /\
  filter_path r = Some r.
Proof.
  intros Hp H. destruct (filter_path_rooted p r Hp H) as [S E].
  repeat split; [exact S|exact E|].
  now apply filter_path_idempotent_rooted with p.
Qed.

Lemma filter_path_on_rooted_input_witness :
  startswith (lit "/") (lit "/blog?page=2") = true /\
  filter_path (lit "/blog?page=2") = Some (lit "/blog/") /\
  filter_path (lit "/blog/") = Some (lit "/blog/").
Proof.
  split; [reflexivity|]. split; [reflexivity|].
  exact (proj2 (proj2 (filter_path_on_rooted_input
                         (lit "/blog?page=2") (lit "/blog/")
                         eq_refl eq_refl))).
Defined.

(** ** filter_batch *)

(** X5: batches compose: when the rows of a response are the rows of a
    first response followed by the rows of a second, [filter_batch] on it
    does what [filter_batch] on the first and then, unless that raised, on
    the second does, on the same two lists. *)
Theorem filter_batch_composes (rs rs1 rs2 : response) (ps cs : option loc)
    (h : heap) :
  response_rows rs = response_rows rs1 ++ response_rows rs2 ->
  filter_batch rs ps cs h
  = match filter_batch rs1 ps cs h with
    | (Ok _, h1) => filter_batch rs2 ps cs h1
    | (Raise e, h1) => (Raise e, h1)
    end.
Proof.
  intros H. rewrite !filter_batch_rows, H, for_each_app. unfold bind.
  destruct (for_each _ (response_rows rs1) h) as [[[]|e] h1];
    [|reflexivity].
  now rewrite filter_batch_rows.
Qed.

Lemma filter_batch_composes_witness :
  filter_batch (sample_response (rows_ab_ac ++ rows_cd) None)
               None None initial_heap
  = match filter_batch (sample_response rows_ab_ac None)
                       None None initial_heap with
    | (Ok _, h1) => filter_batch (sample_response rows_cd None) None None h1
    | (Raise e, h1) => (Raise e, h1)
    end.
Proof.
  apply (filter_batch_composes
           (sample_response (rows_ab_ac ++ rows_cd) None)
           (sample_response rows_ab_ac None)
           (sample_response rows_cd None)).
  reflexivity.
Defined.



Lemma Forall2_In_right {A B} (R : A -> B -> Prop) (l : list A)
    (l' : list B) (b : B) :
  Forall2 R l l' -> In b l' -> exists a, In a l /\ R a b.
Proof.
  induction 1 as [|a b' l l' Hab _ IH]; simpl; [tauto|].
  intros [->|H]; [eauto|]. destruct (IH H) as (a' & Ha & Hr). eauto.
Qed.

Lemma index_of_injective (x y : elem) (l : list elem) (i : nat) :
  index_of x l = Some i -> index_of y l = Some i -> x = y.
Proof.
  intros Hx Hy. apply index_of_Some in Hx as [Hx _].
  apply index_of_Some in Hy as [Hy _]. congruence.
Qed.

(** X7: when [filter_batch] returns, on two different list objects, every
    connection it has appended is a triple of two different positions of
    [paths], both within the list, at which two different paths ending
    with a slash are stored: a connection never points outside [paths]
    and is never a loop. *)
Theorem connections_point_into_paths (rs : response) (p c : loc)
    (h h' : heap) (pc : loc * loc) :
  p <> c ->
  filter_batch rs (Some p) (Some c) h = (Ok pc, h') ->
  exists new,
    cells h' c = cells h c ++ new /\
    forall e, In e new ->
      exists i j n prev current,
        e = EConn (Z.of_nat i) (Z.of_nat j) n /\
        i < length (cells h' p) /\ j < length (cells h' p) /\ i <> j /\
        nth_error (cells h' p) i = Some (EStr prev) /\
        nth_error (cells h' p) j = Some (EStr current) /\
        prev <> current /\
        endswith (lit "/") prev = true /\
        endswith (lit "/") current = true.
Proof.
  intros Hpc H.
  destruct (filter_batch_lists rs p c h Hpc)
    as (out0 & h0 & E & (u & L & Hout) & _ & _).
  rewrite H in E. injection E as <- <-.
  destruct u as [u|e]; [|discriminate].
  apply ingest_rows_connections in L as (new & Hcs & F).
  exists new. split; [exact Hcs|]. intros e He.
  destruct (Forall2_In_right _ _ _ _ F He)
    as (r & _ & prev & current & i & j & n & A & I & J & _ & ->).
  apply accepted_iff in A as (d1 & d2 & _ & _ & F1 & F2 & Hne).
  exists i, j, n, prev, current.
  destruct (index_of_Some _ _ _ I) as [Ni Li].
  destruct (index_of_Some _ _ _ J) as [Nj Lj].
  repeat split; auto.
  - intros ->. apply Hne.
    assert (EStr prev = EStr current) as Q
      by (eapply index_of_injective; eassumption).
    now injection Q.
  - eapply filter_path_ends_with_slash; eassumption.
  - eapply filter_path_ends_with_slash; eassumption.
Qed.

Lemma connections_point_into_paths_witness :
  default_paths <> default_connections /\
  exists new,
    cells (snd (filter_batch (sample_response rows_ab_ac None)
                             (Some default_paths) (Some default_connections)
                             initial_heap)) default_connections
    = cells initial_heap default_connections ++ new.
Proof.
  split; [discriminate|].
  destruct (connections_point_into_paths
              (sample_response rows_ab_ac None)
              default_paths default_connections initial_heap
              (snd (filter_batch (sample_response rows_ab_ac None)
                                 (Some default_paths)
                                 (Some default_connections) initial_heap))
              (default_paths, default_connections))
    as (new & H & _).
  - discriminate.
  - reflexivity.
  - exists new. exact H.
Defined.

(** X8: when [filter_batch] raises, on two different list objects, the
    row at which it raises is a used row whose metric lookup raises that
    exception, and [connections] holds, after its old contents, exactly
    one connection for each used row before that row: the rows handled
    before the failure have taken effect. *)
Theorem failed_filter_batch_keeps_earlier_rows (rs : response) (p c : loc)
    (h h' : heap) (e : exn) :
  p <> c ->
  filter_batch rs (Some p) (Some c) h = (Raise e, h') ->
  exists handled r rest new,
    response_rows rs = handled ++ r :: rest /\
    cells h' c = cells h c ++ new /\
    Forall2 (connection_for (cells h' p)) (filter is_accepted handled) new /\
    is_accepted r = true /\
    first_count (get_or (metrics r) []) = Raise e.
Proof. apply connections_when_filter_batch_raises. Qed.

Lemma failed_filter_batch_keeps_earlier_rows_witness :
  default_paths <> default_connections /\
  exists handled r rest new,
    rows_cd ++ [row_without_metrics] = handled ++ r :: rest /\
    cells (snd (filter_batch
                  (sample_response (rows_cd ++ [row_without_metrics]) None)
                  (Some default_paths) (Some default_connections)
                  initial_heap)) default_connections
    = cells initial_heap default_connections ++ new.
Proof.
  split; [discriminate|].
  destruct (failed_filter_batch_keeps_earlier_rows
              (sample_response (rows_cd ++ [row_without_metrics]) None)
              default_paths default_connections initial_heap
              (snd (filter_batch
                      (sample_response (rows_cd ++ [row_without_metrics])
                                       None)
                      (Some default_paths) (Some default_connections)
                      initial_heap))
              IndexError)
    as (handled & r & rest & new & H1 & H2 & _).
  - discriminate.
  - reflexivity.
  - exists handled, r, rest, new. split; [exact H1|exact H2].
Defined.

(** ** write, read and _maybe_to_number *)

Lemma startswith_prefix (a b : str) : startswith a (a ++ b) = true.
Proof.
  induction a as [|x a IH]; simpl; [reflexivity|].
  now rewrite N.eqb_refl, IH.
Qed.

Lemma endswith_suffix (s suffix : str) : endswith suffix (s ++ suffix) = true.
Proof.
  unfold endswith. rewrite rev_app_distr. apply startswith_prefix.
Qed.

Lemma csv_name_ends (file_name : str) :
  endswith (lit ".csv") (csv_name file_name) = true.
Proof.
  unfold csv_name. destruct (endswith (lit ".csv") file_name) eqn:E;
    simpl; [exact E|apply endswith_suffix].
Qed.

(** X9: the extension is added once: the name that [write] and [read]
    use ends with [.csv], a name that has the extension is used as it is,
    and so writing or reading under a name and under that name with the
    extension is the same. *)
Theorem csv_extension_added_once (file_name : str) :
  endswith (lit ".csv") (csv_name file_name) = true /\
  csv_name (csv_name file_name) = csv_name file_name /\
  (forall data fs,
      write data (csv_name file_name) fs = write data file_name fs) /\
  (forall is_flat fs,
      read (csv_name file_name) is_flat fs = read file_name is_flat fs).
Proof.
  pose proof (csv_name_ends file_name) as E.
  assert (csv_name (csv_name file_name) = csv_name file_name) as I
    by (unfold csv_name at 1; now rewrite E).
  repeat split; [exact E|exact I| |].
  - intros data fs. unfold write. now rewrite I.
  - intros is_flat fs. unfold read. now rewrite I.
Qed.

(** X10: what [_maybe_to_number] can return: for a field on which
    [isdigit] does not hold, the field itself; otherwise the integer that
    [int] gives for the field.  It never returns a floating-point number,
    and it raises only when [isdigit] holds and [int] fails. *)
Theorem _maybe_to_number_cases (x : str) :
  (isdigit x = false /\ _maybe_to_number x = Ok (VStr x)) \/
  (isdigit x = true /\
   exists n, py_int x = Some n /\ _maybe_to_number x = Ok (VInt n)) \/
  (isdigit x = true /\ py_int x = None /\
   _maybe_to_number x = Raise ValueError).
Proof.
  unfold _maybe_to_number, int_of. destruct (isdigit x) eqn:D; [|auto].
  rewrite (isdigit_no_dot x D). right.
  destruct (py_int x) as [n|]; [left|right]; eauto.
Qed.

(** X11: a non-empty field of ASCII digits, of at most 4300 digits (the
    interpreter's default limit), comes back as the integer it denotes in
    base ten, so leading zeros are lost; with more digits than that,
    [_maybe_to_number] raises [ValueError]; a field with a character that
    is not a digit, such as a path, comes back as the same string. *)
Theorem digit_fields_become_integers (x : str) :
  x <> [] ->
  (ascii_digits x = true ->
   (N.of_nat (length x) <= max_str_digits)%N ->
   _maybe_to_number x = Ok (VInt (digits_value x))) /\
  (ascii_digits x = true ->
   (max_str_digits < N.of_nat (length x))%N ->
   _maybe_to_number x = Raise ValueError) /\
  ((exists c, In c x /\ is_digit_char c = false) ->
   _maybe_to_number x = Ok (VStr x)).
Proof.
  intros Hne. split; [|split].
  - now apply _maybe_to_number_ascii_digits.
  - now apply _maybe_to_number_over_limit.
  - intros (c & Hc & Dc). unfold _maybe_to_number.
    replace (isdigit x) with false; [reflexivity|].
    symmetry. destruct x as [|y x]; [reflexivity|]. unfold isdigit.
    destruct (forallb is_digit_char (y :: x)) eqn:F; [|reflexivity].
    rewrite forallb_forall in F. rewrite (F c Hc) in Dc. discriminate.
Qed.

Lemma digit_fields_become_integers_witness :
  lit "007" <> [] /\
  _maybe_to_number (lit "007") = Ok (VInt 7) /\
  _maybe_to_number (repeat 49%N 4301) = Raise ValueError /\
  _maybe_to_number (lit "/a/") = Ok (VStr (lit "/a/")).
Proof.
  assert (lit "007" <> []) as H1 by discriminate.
  assert (repeat 49%N 4301 <> []) as H2 by discriminate.
  assert (lit "/a/" <> []) as H3 by discriminate.
  split; [exact H1|]. split; [|split].
  - apply (proj1 (digit_fields_become_integers (lit "007") H1));
      [reflexivity|vm_compute; discriminate].
  - apply (proj1 (proj2 (digit_fields_become_integers (repeat 49%N 4301) H2)));
      reflexivity.
  - apply (proj2 (proj2 (digit_fields_become_integers (lit "/a/") H3))).
    exists 47%N. split; [now left|reflexivity].
Defined.

Lemma ingest_rows_app (a b : list row) (ps cs : list elem) :
  ingest_rows (a ++ b) ps cs
  = match ingest_rows a ps cs with
    | (Ok _, ps', cs') => ingest_rows b ps' cs'
    | (Raise e, ps', cs') => (Raise e, ps', cs')
    end.
Proof.
  revert ps cs. induction a as [|r a IH]; intros ps cs; simpl;
    [reflexivity|].
  destruct (ingest_lists r ps cs) as [[[[]|e] ps1] cs1]; [apply IH|reflexivity].
Qed.

Lemma filtered_rows_app (tr tr' : list event) :
  filtered_rows (tr ++ tr') = filtered_rows tr ++ filtered_rows tr'.
Proof. unfold filtered_rows. apply flat_map_app. Qed.

(** The loop of [get], when it returns normally: the two lists are the
    ones it was started with, the rest of the heap is as before, and the
    lists hold what ingesting the rows of the pages of the run, in order,
    into their old contents gives. *)
Lemma get_loop_ingests (src : source) (self : PagePaths) (fuel : nat) :
  forall cur p c tr0 h p' c' h' tr,
    p <> c ->
    get_loop src self fuel cur p c tr0 h = Some (Ok (p', c'), h', tr) ->
    p' = p /\ c' = c /\
    exists suffix,
      tr = tr0 ++ suffix /\
      ingest_rows (filtered_rows suffix) (cells h p) (cells h c)
      = (Ok tt, cells h' p, cells h' c).
Proof.
  induction fuel as [|fuel IH]; intros cur p c tr0 h p' c' h' tr Hpc; simpl;
    [discriminate|].
  destruct (src _) as [rs|e]; [|discriminate].
  destruct (match get_or (reports rs) [] with [] => _ | _ :: _ => _ end)
    as [more cur'].
  destruct (filter_batch_lists rs p c h Hpc)
    as (out & h1 & -> & (u & L & ->) & _ & _).
  destruct u as [[]|e]; [|discriminate].
  destruct more.
  - intros H. apply IH in H as (-> & -> & suffix & -> & I); [|exact Hpc].
    repeat split.
    exists (Fetch (batch_request self cur) :: Filter rs :: suffix).
    rewrite <- !app_assoc. split; [reflexivity|].
    change (filtered_rows (Fetch (batch_request self cur) :: Filter rs
                             :: suffix))
      with (response_rows rs ++ filtered_rows suffix).
    now rewrite ingest_rows_app, L.
  - intros [= <- <- <- <-]. repeat split.
    exists [Fetch (batch_request self cur); Filter rs].
    rewrite <- app_assoc. split; [reflexivity|].
    change (filtered_rows [Fetch (batch_request self cur); Filter rs])
      with (response_rows rs ++ []).
    now rewrite app_nil_r.
Qed.

(** The loop of [get], when it returns normally, has fetched exactly the
    pages that the source serves along the tokens, and its lists hold what
    ingesting the rows of these pages, in order, into their old contents
    gives. *)
Lemma get_loop_serves (src : source) (self : PagePaths) (fuel : nat) :
  forall cur p c tr0 h p' c' h' tr,
    p <> c ->
    get_loop src self fuel cur p c tr0 h = Some (Ok (p', c'), h', tr) ->
    exists suffix,
      tr = tr0 ++ suffix /\
      filtered_rows suffix
      = flat_map response_rows
                 (served_pages src self fuel cur (requests_of tr0)) /\
      length (requests_of suffix)
      = length (served_pages src self fuel cur (requests_of tr0)) /\
      ingest_rows (flat_map response_rows
                            (served_pages src self fuel cur (requests_of tr0)))
                  (cells h p) (cells h c)
      = (Ok tt, cells h' p', cells h' c').
Proof.
  induction fuel as [|fuel IH]; intros cur p c tr0 h p' c' h' tr Hpc; simpl;
    [discriminate|].
  rewrite requests_of_app. cbn [requests_of].
  destruct (src _) as [rs|e]; [|discriminate].
  pose proof (eq_refl (token_of rs)) as T. unfold token_of at 2 in T.
  destruct (filter_batch_lists rs p c h Hpc)
    as (out & h1 & -> & (u & L & ->) & _ & _).
  destruct (get_or (reports rs) []) as [|rp rps];
    [|destruct (nextPageToken rp) as [t|]]; rewrite T;
    (destruct u as [[]|e]; [|discriminate]).
  - intros [= <- <- <- <-].
    exists [Fetch (batch_request self cur); Filter rs].
    rewrite <- app_assoc. cbn [flat_map]. rewrite app_nil_r.
    repeat split; [apply app_nil_r|exact L].
  - intros H. apply IH in H as (suffix & -> & F & N & I); [|exact Hpc].
    rewrite !requests_of_app in F, N, I. cbn [requests_of] in F, N, I.
    rewrite app_nil_r in F, N, I.
    exists (Fetch (batch_request self cur) :: Filter rs :: suffix).
    rewrite <- !app_assoc. split; [reflexivity|]. cbn [flat_map].
    split; [|split].
    + change (filtered_rows (Fetch (batch_request self cur) :: Filter rs
                               :: suffix))
        with (response_rows rs ++ filtered_rows suffix).
      now rewrite F.
    + cbn [requests_of length]. now rewrite N.
    + now rewrite ingest_rows_app, L.
  - intros [= <- <- <- <-].
    exists [Fetch (batch_request self cur); Filter rs].
    rewrite <- app_assoc. cbn [flat_map]. rewrite app_nil_r.
    repeat split; [apply app_nil_r|exact L].
Qed.

(** X12: when [get] returns two lists, they hold exactly what ingesting,
    into two empty lists, the rows of the pages that the source serves
    along the tokens gives, page after page in the order of the tokens:
    paginating does not change the graph.  The run has sent one request
    for each of these pages, and the rows it has given to [filter_batch]
    are the rows of these pages. *)
Theorem get_ingests_all_pages (src : source) (self : PagePaths)
    (fuel : nat) (h h' : heap) (p c : loc) (tr : list event) :
  get src self fuel h = Some (Ok (p, c), h', tr) ->
  ingest_rows (flat_map response_rows
                        (served_pages src self fuel (CInt 0) []))
              [] []
  = (Ok tt, cells h' p, cells h' c) /\
  filtered_rows tr
  = flat_map response_rows (served_pages src self fuel (CInt 0) []) /\
  length (requests_of tr)
  = length (served_pages src self fuel (CInt 0) []).
Proof.
  unfold get. simpl. intros H.
  apply get_loop_serves in H as (suffix & -> & F & N & I); [|lia].
  simpl in I. rewrite Nat.eqb_refl in I.
  destruct (Nat.eqb_spec (next h) (S (next h))) as [E|_]; [lia|].
  auto.
Qed.

Lemma get_ingests_all_pages_witness :
  served_pages two_pages sample_self 2 (CInt 0) []
  = [sample_response rows_ab_ac (Some (lit "1000"));
     sample_response rows_cd None] /\
  match get two_pages sample_self 2 initial_heap with
  | Some (Ok (p, c), h', tr) =>
      ingest_rows (rows_ab_ac ++ rows_cd) [] []
      = (Ok tt, cells h' p, cells h' c)
  | _ => False
  end.
Proof.
  split; [reflexivity|].
  destruct (get two_pages sample_self 2 initial_heap)
    as [[[[[p c]|e] h'] tr]|] eqn:E.
  - exact (proj1 (get_ingests_all_pages two_pages sample_self 2 initial_heap
                                        h' p c tr E)).
  - vm_compute in E. discriminate.
  - vm_compute in E. discriminate.
Defined.

Lemma get_loop_frame (src : source) (self : PagePaths) (fuel : nat) :
  forall cur p c tr0 h res h' tr,
    p <> c ->
    get_loop src self fuel cur p c tr0 h = Some (res, h', tr) ->
    next h' = next h /\
    forall l, l <> p -> l <> c -> cells h' l = cells h l.
Proof.
  induction fuel as [|fuel IH]; intros cur p c tr0 h res h' tr Hpc; simpl;
    [discriminate|].
  destruct (src _) as [rs|e]; [|intros [= <- <- <-]; auto].
  destruct (match get_or (reports rs) [] with [] => _ | _ :: _ => _ end)
    as [more cur'].
  destruct (filter_batch_lists rs p c h Hpc)
    as (out & h1 & -> & (u & _ & ->) & N & F).
  destruct u as [[]|e]; [|intros [= <- <- <-]; auto].
  destruct more; [|intros [= <- <- <-]; auto].
  intros H. apply IH in H as [N' F']; [|exact Hpc].
  split; [congruence|]. intros l Hp Hc. rewrite F', F by auto. reflexivity.
Qed.

(** X13: [get] works on two lists of its own: whatever it returns, every
    list that was in the heap before the call, the default lists of
    [filter_batch] among them, has the contents it had, and the lists that
    [get] returns are two new, different objects. *)
Theorem get_uses_new_lists (src : source) (self : PagePaths) (fuel : nat)
    (h h' : heap) (res : result (loc * loc)) (tr : list event) :
  get src self fuel h = Some (res, h', tr) ->
  (forall l, l < next h -> cells h' l = cells h l) /\
  (forall p c, res = Ok (p, c) -> p = next h /\ c = S (next h)).
Proof.
  unfold get. simpl. intros H. split.
  - apply get_loop_frame in H as [_ F]; [|lia].
    intros l Hl. rewrite F by lia. simpl.
    destruct (Nat.eqb_spec l (S (next h))); [lia|].
    destruct (Nat.eqb_spec l (next h)); [lia|reflexivity].
  - intros p c ->. apply get_loop_ingests in H as (-> & -> & _); [auto|lia].
Qed.

Lemma get_uses_new_lists_witness :
  match get two_pages sample_self 2
            (snd (filter_batch (sample_response rows_cd None) None None
                               initial_heap)) with
  | Some (_, h', _) =>
      cells h' default_paths = [EStr (lit "/c/"); EStr (lit "/d/")]
  | None => False
  end.
Proof.
  destruct (get two_pages sample_self 2
                (snd (filter_batch (sample_response rows_cd None) None None
                                   initial_heap)))
    as [[[res h'] tr]|] eqn:E.
  - rewrite (proj1 (get_uses_new_lists two_pages sample_self 2 _ h' res tr E)
                   default_paths); [reflexivity|vm_compute; lia].
  - vm_compute in E. discriminate.
Defined.

(** X14: what [get] returns, the outcome with the contents of the two
    lists and the requests and pages of the run, is the same from every
    heap: it does not depend on earlier calls of [get] or [filter_batch]. *)
Theorem get_result_independent_of_earlier_calls (src : source)
    (self : PagePaths) (fuel : nat) (h1 h2 : heap) :
  observed (get src self fuel h1) = observed (get src self fuel h2).
Proof. apply get_independent_of_heap. Qed.

(** ** The csv round trip of fields on one line *)

Lemma writerow_written (cells : list cell) :
  writerow cells = written_record (map field_text cells) ++ lineterminator.
Proof.
  unfold writerow, written_record. destruct cells as [|c cells];
    [reflexivity|]. cbn [map].
  destruct (join_fields (field_text c :: map field_text cells)); reflexivity.
Qed.

(** Feeding the parser the body of a quoted field. *)
Lemma parse_line_quoted_body (s rest : str) :
  forall fs buf n,
    (n + N.of_nat (length s) <= field_limit)%N ->
    parse_line {| state := IN_QUOTED_FIELD; fields := fs; field := buf;
                  field_len := n |} (escape_field s ++ rest)
    = parse_line {| state := IN_QUOTED_FIELD; fields := fs;
                    field := rev s ++ buf;
                    field_len := n + N.of_nat (length s) |} rest.
Proof.
  induction s as [|c s IH]; intros fs buf n Hn.
  - simpl. now rewrite N.add_0_r.
  - cbn [length] in Hn.
    assert (parse_line {| state := IN_QUOTED_FIELD; fields := fs;
                          field := buf; field_len := n |}
                       (escape_field (c :: s) ++ rest)
            = parse_line {| state := IN_QUOTED_FIELD; fields := fs;
                            field := c :: buf; field_len := n + 1 |}
                         (escape_field s ++ rest)) as Step.
    { cbn [escape_field]. destruct (N.eqb_spec c quotechar) as [->|Hq].
      - cbn [app parse_line]. unfold parse_process_char at 1. cbn [state].
        rewrite N.eqb_refl. unfold set_state. cbn [fields field field_len].
        unfold parse_process_char at 1. cbn [state].
        rewrite N.eqb_refl. unfold parse_add_char. cbn [field_len].
        destruct (N.leb_spec field_limit n); [lia|reflexivity].
      - cbn [app parse_line]. unfold parse_process_char at 1. cbn [state].
        apply N.eqb_neq in Hq. rewrite Hq. unfold parse_add_char.
        cbn [field_len].
        destruct (N.leb_spec field_limit n); [lia|reflexivity]. }
    rewrite Step, IH by lia.
    replace (n + N.of_nat (length (c :: s)))%N
      with (n + 1 + N.of_nat (length s))%N by (cbn [length]; lia).
    cbn [rev]. now rewrite <- (app_assoc (rev s) [c] buf).
Qed.

Lemma plain_of_unquoted (f : str) :
  existsb needs_quotes f = false -> forallb plain_char f = true.
Proof.
  induction f as [|c f IH]; simpl; [reflexivity|]. intros H.
  apply orb_false_iff in H as [Hc Hf]. unfold plain_char at 1.
  now rewrite Hc, IH.
Qed.

Lemma line_field_length (f : str) :
  line_field f = true -> (N.of_nat (length f) <= field_limit)%N.
Proof.
  intros H. apply andb_true_iff in H as [_ H]. now apply N.leb_le.
Qed.

(** A written field followed by a delimiter: the parser has read the
    field and waits for the next one. *)
Lemma parse_field_then_delimiter (f rest : str) (q : bool)
    (done : list str) :
  line_field f = true ->
  parse_line (reader_at START_FIELD done)
             (join_append f q ++ delimiter :: rest)
  = parse_line (reader_at START_FIELD (done ++ [f])) rest.
Proof.
  intros H. pose proof (line_field_length f H) as Hl. unfold join_append.
  destruct (q || existsb needs_quotes f) eqn:Q.
  - rewrite <- !app_assoc. cbn [app parse_line].
    unfold parse_process_char at 1. cbn [state reader_at start_field].
    change (is_newline quotechar) with false.
    change (quotechar =? quotechar)%N with true. cbv iota.
    unfold set_state, reader_at. cbn [fields field field_len].
    rewrite parse_line_quoted_body by lia.
    cbn [app parse_line]. unfold parse_process_char at 1. cbn [state].
    change (quotechar =? quotechar)%N with true. cbv iota.
    unfold set_state. cbn [fields field field_len].
    unfold parse_process_char at 1. cbn [state].
    change (delimiter =? quotechar)%N with false.
    change (delimiter =? delimiter)%N with true. cbv iota.
    unfold parse_save_field. cbn [fields field].
    now rewrite app_nil_r, rev_involutive.
  - apply orb_false_iff in Q as [_ Q]. apply plain_of_unquoted in Q.
    rewrite parse_line_field by assumption.
    destruct f as [|c f]; [reflexivity|].
    cbn [parse_line]. unfold parse_process_char at 1. cbn [state].
    change (is_newline delimiter) with false.
    change (delimiter =? delimiter)%N with true. cbv iota.
    unfold parse_save_field. cbn [fields field].
    now rewrite rev_involutive.
Qed.

(** A written field at the end of the line: the record is complete. *)
Lemma parse_field_then_newline (f : str) (q : bool) (done : list str) :
  line_field f = true ->
  parse_line (reader_at START_FIELD done) (join_append f q ++ [LF])
  = Ok (reader_at START_RECORD (done ++ [f])).
Proof.
  intros H. pose proof (line_field_length f H) as Hl. unfold join_append.
  destruct (q || existsb needs_quotes f) eqn:Q.
  - rewrite <- !app_assoc. cbn [app parse_line].
    unfold parse_process_char at 1. cbn [state reader_at start_field].
    change (is_newline quotechar) with false.
    change (quotechar =? quotechar)%N with true. cbv iota.
    unfold set_state, reader_at. cbn [fields field field_len].
    rewrite parse_line_quoted_body by lia.
    cbn [app parse_line]. unfold parse_process_char at 1. cbn [state].
    change (quotechar =? quotechar)%N with true. cbv iota.
    unfold set_state. cbn [fields field field_len].
    unfold parse_process_char at 1. cbn [state].
    change (LF =? quotechar)%N with false.
    change (LF =? delimiter)%N with false.
    change (is_newline LF) with true. cbv iota.
    unfold parse_save_field. cbn [fields field].
    rewrite app_nil_r, rev_involutive. reflexivity.
  - apply orb_false_iff in Q as [_ Q]. apply plain_of_unquoted in Q.
    rewrite parse_line_field by assumption.
    destruct f as [|c f]; [reflexivity|].
    cbn [parse_line]. unfold parse_process_char at 1. cbn [state].
    change (is_newline LF) with true. cbv iota.
    unfold parse_save_field. cbn [fields field].
    rewrite rev_involutive. reflexivity.
Qed.

Lemma parse_joined_fields (texts : list str) :
  forall done,
    texts <> [] ->
    forallb line_field texts = true ->
    parse_line (reader_at START_FIELD done) (join_fields texts ++ [LF])
    = Ok (reader_at START_RECORD (done ++ texts)).
Proof.
  induction texts as [|f texts IH]; intros done Hne H; [contradiction|].
  cbn [forallb] in H. apply andb_true_iff in H as [Hf Ht].
  destruct texts as [|g texts].
  - cbn [join_fields]. now apply parse_field_then_newline.
  - change (join_fields (f :: g :: texts))
      with (join_append f false ++ [delimiter] ++ join_fields (g :: texts)).
    rewrite <- !app_assoc. cbn [app].
    rewrite parse_field_then_delimiter by exact Hf.
    rewrite IH by (auto; discriminate). now rewrite <- app_assoc.
Qed.

Lemma escape_field_chars (f : str) (c : char) :
  In c (escape_field f) -> In c f.
Proof.
  induction f as [|y f IH]; simpl; [tauto|].
  destruct (N.eqb_spec y quotechar) as [->|_]; simpl; intuition.
Qed.

Lemma join_append_chars (f : str) (q : bool) (c : char) :
  In c (join_append f q) -> In c f \/ c = quotechar.
Proof.
  unfold join_append. destruct (q || existsb needs_quotes f); [|auto].
  rewrite !in_app_iff. simpl.
  intros [[<-|[]]|[H|[<-|[]]]]; auto using escape_field_chars.
Qed.

Lemma join_fields_chars (texts : list str) (c : char) :
  In c (join_fields texts) ->
  (exists f, In f texts /\ In c f) \/ c = quotechar \/ c = delimiter.
Proof.
  induction texts as [|f texts IH]; [contradiction|].
  destruct texts as [|g texts].
  - cbn [join_fields]. intros H.
    apply join_append_chars in H as [H|H]; [left|auto].
    exists f. split; [now left|exact H].
  - change (join_fields (f :: g :: texts))
      with (join_append f false ++ [delimiter] ++ join_fields (g :: texts)).
    rewrite !in_app_iff. intros [H|[[<-|[]]|H]]; auto.
    + apply join_append_chars in H as [H|H]; [left|auto].
      exists f. split; [now left|exact H].
    + apply IH in H as [(f' & Hf & Hc)|H]; [left|auto].
      exists f'. split; [now right|exact Hc].
Qed.

Lemma written_record_chars (texts : list str) (c : char) :
  forallb line_field texts = true ->
  In c (written_record texts) -> is_newline c = false.
Proof.
  intros H Hc.
  assert ((exists f, In f texts /\ In c f) \/ c = quotechar \/ c = delimiter)
    as [(f & Hf & Hcf)|[->| ->]]; [|  |reflexivity..].
  { unfold written_record in Hc. destruct texts as [|f texts].
    - destruct Hc.
    - destruct (join_fields (f :: texts)) eqn:E.
      + destruct Hc as [<-|[<-|[]]]; auto.
      + rewrite <- E in Hc. now apply join_fields_chars. }
  rewrite forallb_forall in H. specialize (H f Hf).
  apply andb_true_iff in H as [H _]. rewrite forallb_forall in H.
  specialize (H c Hcf). unfold line_char in H.
  now destruct (is_newline c).
Qed.

Lemma join_append_nil (f : str) (q : bool) :
  join_append f q = [] -> f = [].
Proof.
  unfold join_append. destruct (q || existsb needs_quotes f);
    [discriminate|auto].
Qed.

Lemma parse_written_record (texts : list str) :
  forallb line_field texts = true ->
  parse_line reader_reset (written_record texts ++ [LF])
  = Ok (reader_at START_RECORD texts).
Proof.
  intros H. destruct texts as [|f texts]; [reflexivity|].
  pose proof (written_record_chars (f :: texts)) as Chars.
  unfold written_record in *.
  destruct (join_fields (f :: texts)) as [|c l] eqn:E.
  - destruct texts as [|g texts].
    + cbn [join_fields] in E. apply join_append_nil in E. now subst f.
    + change (join_fields (f :: g :: texts))
        with (join_append f false ++ [delimiter]
              ++ join_fields (g :: texts)) in E.
      apply app_eq_nil in E as [_ E]. discriminate.
  - assert (is_newline c = false) as NL by (apply Chars; auto; now left).
    cbn [app]. rewrite parse_line_from_reset by exact NL.
    change (c :: l ++ [LF]) with ((c :: l) ++ [LF]). rewrite <- E.
    now rewrite parse_joined_fields.
Qed.

(** The lines of a file of records without CR and LF, each written with
    the line terminator: one line per record. *)
Lemma file_lines_records (recs : list str) :
  (forall r c, In r recs -> In c r -> is_newline c = false) ->
  file_lines (flat_map (fun r => r ++ lineterminator) recs)
  = map (fun r => r ++ [LF]) recs.
Proof.
  unfold file_lines. induction recs as [|r recs IH]; intros H;
    [reflexivity|].
  cbn [flat_map map]. unfold lineterminator at 1.
  rewrite <- app_assoc. cbn [app].
  assert (forall c, In c r -> c <> LF /\ c <> CR) as Hc.
  { intros c Hin. apply is_newline_spec. apply (H r c); [now left|exact Hin]. }
  rewrite universal_newlines_line by (intros Hin; now apply Hc in Hin).
  rewrite split_lines_line by (intros Hin; now apply Hc in Hin).
  cbn [rev app]. rewrite IH; [reflexivity|].
  intros r' c Hr. apply H. now right.
Qed.

Lemma reader_records_written (texts : list (list str)) :
  forallb (forallb line_field) texts = true ->
  reader_records reader_reset (map (fun t => written_record t ++ [LF]) texts)
  = (texts, None).
Proof.
  induction texts as [|t texts IH]; intros H; [reflexivity|].
  cbn [forallb] in H. apply andb_true_iff in H as [Ht Htexts].
  cbn [map reader_records]. rewrite (parse_written_record t Ht).
  cbn [reader_at state is_start_record fields]. now rewrite IH.
Qed.

Lemma written_file (data : list item) :
  flat_map (fun it => writerow (item_row it)) data
  = flat_map (fun r => r ++ lineterminator)
             (map written_record (map row_texts data)).
Proof.
  induction data as [|it data IH]; [reflexivity|].
  cbn [flat_map map]. now rewrite IH, writerow_written.
Qed.

(** What the reader yields for written data whose fields are on one
    line: record by record, the texts of the fields. *)
Lemma read_written_records (data : list item) (name : str) (is_flat : bool)
    (fs : files) :
  forallb line_item data = true ->
  read name is_flat (write data name fs)
  = read_records is_flat (map row_texts data) None.
Proof.
  intros H.
  assert (forallb (forallb line_field) (map row_texts data) = true) as H'
    by now rewrite forallb_through_map.
  rewrite read_written, written_file, file_lines_records.
  - rewrite map_map. now rewrite reader_records_written.
  - intros r c Hr Hc. apply in_map_iff in Hr as (t & <- & Ht).
    apply (written_record_chars t c); [|exact Hc].
    rewrite forallb_forall in H'. now apply H'.
Qed.

(** ** The decimal text of an integer *)

Lemma lit_String (a : Ascii.ascii) (s : String.string) :
  lit (String.String a s) = Ascii.N_of_ascii a :: lit s.
Proof. reflexivity. Qed.

Lemma digits_of_uint (d : Decimal.uint) :
  forall a,
    fold_left (fun acc c => (10 * acc + Z.of_N (c - 48))%Z)
              (lit (DecimalString.NilEmpty.string_of_uint d))
              (Z.of_N (DecimalPos.Unsigned.of_lu a))
    = Z.of_N (DecimalPos.Unsigned.of_lu (Decimal.revapp d a)).
Proof.
  induction d as [|d IH|d IH|d IH|d IH|d IH|d IH|d IH|d IH|d IH|d IH];
    intros a; [reflexivity|..];
    cbn [DecimalString.NilEmpty.string_of_uint Decimal.revapp];
    rewrite lit_String; cbn [fold_left]; rewrite <- IH; f_equal;
    cbn [DecimalPos.Unsigned.of_lu]; simpl Ascii.N_of_ascii; lia.
Qed.

Lemma ascii_digits_of_uint (d : Decimal.uint) :
  ascii_digits (lit (DecimalString.NilEmpty.string_of_uint d)) = true.
Proof.
  induction d; [reflexivity|..];
    cbn [DecimalString.NilEmpty.string_of_uint]; rewrite lit_String;
    unfold ascii_digits in *; cbn [forallb]; rewrite IHd; reflexivity.
Qed.

(** The text of a non-negative integer: a non-empty text of ASCII digits
    that denotes the integer. *)
Lemma str_of_int_nonneg (n : Z) :
  (0 <= n)%Z ->
  str_of_int n <> [] /\
  ascii_digits (str_of_int n) = true /\
  digits_value (str_of_int n) = n.
Proof.
  intros Hn. unfold str_of_int.
  assert (exists d, Z.to_int n = Decimal.Pos d /\ d <> Decimal.Nil)
    as (d & E & Hd).
  { destruct n as [|p|p]; [| |lia].
    - exists Decimal.zero. split; [reflexivity|discriminate].
    - exists (Pos.to_uint p). split; [reflexivity|].
      apply DecimalPos.Unsigned.to_uint_nonnil. }
  pose proof (DecimalZ.of_to n) as V. rewrite E in *.
  cbn [DecimalString.NilEmpty.string_of_int].
  split; [|split].
  - destruct d; [contradiction|..]; discriminate.
  - apply ascii_digits_of_uint.
  - unfold digits_value.
    change 0%Z with (Z.of_N (DecimalPos.Unsigned.of_lu Decimal.Nil)).
    rewrite digits_of_uint.
    change (Decimal.revapp d Decimal.Nil) with (Decimal.rev d).
    rewrite <- DecimalPos.Unsigned.of_uint_alt. exact V.
Qed.

Lemma str_of_int_negative (n : Z) :
  (n < 0)%Z -> exists s, str_of_int n = 45%N :: s.
Proof.
  destruct n as [|p|p]; try lia. intros _. unfold str_of_int.
  cbn [Z.to_int DecimalString.NilEmpty.string_of_int].
  rewrite lit_String. eauto.
Qed.

(** A field with a character that is not a digit is returned as it is. *)
Lemma _maybe_to_number_keeps (x : str) (c : char) :
  In c x -> is_digit_char c = false -> _maybe_to_number x = Ok (VStr x).
Proof.
  intros Hc Dc. unfold _maybe_to_number.
  replace (isdigit x) with false; [reflexivity|].
  symmetry. destruct x as [|y x]; [reflexivity|]. unfold isdigit.
  destruct (forallb is_digit_char (y :: x)) eqn:F; [|reflexivity].
  rewrite forallb_forall in F. rewrite (F c Hc) in Dc. discriminate.
Qed.

Lemma endswith_char_In (c : char) (s : str) :
  endswith [c] s = true -> In c s.
Proof.
  unfold endswith. cbn [rev app]. rewrite startswith_char.
  destruct (rev s) as [|y r] eqn:E; [discriminate|].
  intros H. apply N.eqb_eq in H. subst y.
  apply in_rev. rewrite E. now left.
Qed.

Lemma ascii_digits_line_chars (x : str) :
  ascii_digits x = true -> forallb line_char x = true.
Proof.
  unfold ascii_digits. rewrite !forallb_forall. intros H c Hc.
  specialize (H c Hc). apply andb_true_iff in H as [H1 H2].
  apply N.leb_le in H1. apply N.leb_le in H2.
  unfold line_char, is_newline, LF, CR.
  destruct (N.eqb_spec c 10); [lia|]. destruct (N.eqb_spec c 13); [lia|].
  reflexivity.
Qed.

(** ** write on a platform *)

Lemma translate_newlines_lf (s : str) : translate_newlines [LF] s = s.
Proof.
  unfold translate_newlines. induction s as [|c s IH]; [reflexivity|].
  cbn [flat_map]. rewrite IH.
  destruct (N.eqb_spec c LF) as [->|_]; reflexivity.
Qed.

Lemma str_of_int_neg (n : Z) :
  (n < 0)%Z -> str_of_int n = 45%N :: str_of_int (Z.abs n).
Proof.
  destruct n as [|q|q]; try lia. intros _. unfold str_of_int.
  cbn [Z.abs Z.to_int DecimalString.NilEmpty.string_of_int].
  now rewrite lit_String.
Qed.

Lemma ascii_digits_below (x : str) (c : char) :
  ascii_digits x = true -> In c x -> (c < 128)%N.
Proof.
  unfold ascii_digits. rewrite forallb_forall. intros H Hc.
  specialize (H c Hc). apply andb_true_iff in H as [_ H].
  apply N.leb_le in H. lia.
Qed.

(** The text of an integer has ASCII characters only. *)
Lemma str_of_int_chars (n : Z) (c : char) :
  In c (str_of_int n) -> (c < 128)%N.
Proof.
  destruct (Z.lt_ge_cases n 0) as [Hn|Hn].
  - rewrite (str_of_int_neg n Hn). intros [<-|H]; [reflexivity|].
    destruct (str_of_int_nonneg (Z.abs n)) as (_ & A & _); [lia|].
    now apply ascii_digits_below with (str_of_int (Z.abs n)).
  - destruct (str_of_int_nonneg n Hn) as (_ & A & _).
    now apply ascii_digits_below.
Qed.

(** The text of an integer within the limit on the digits is a field on
    one line. *)
Lemma int_field_line (n : Z) :
  (int_digits n <= max_str_digits)%N -> line_field (str_of_int n) = true.
Proof.
  unfold int_digits, max_str_digits. intros L.
  destruct (str_of_int_nonneg (Z.abs n)) as (_ & A & _); [lia|].
  apply ascii_digits_line_chars in A.
  unfold line_field, field_limit. apply andb_true_iff.
  destruct (Z.lt_ge_cases n 0) as [Hn|Hn].
  - rewrite (str_of_int_neg n Hn). cbn [forallb length]. rewrite A.
    split; [reflexivity|]. apply N.leb_le. lia.
  - rewrite Z.abs_eq in * by exact Hn. rewrite A.
    split; [reflexivity|]. apply N.leb_le. lia.
Qed.

Lemma cell_texts_ok (pf : platform) (cells : list cell) :
  forallb (storable_cell pf) cells = true ->
  map_result cell_text cells = Ok (map field_text cells).
Proof.
  induction cells as [|c cells IH]; [reflexivity|]. cbn [forallb].
  intros H. apply andb_true_iff in H as [Hc H].
  cbn [map_result map]. rewrite (IH H).
  destruct c as [x|n|]; try reflexivity.
  cbn [cell_text field_text]. unfold str_of_int_or_raise.
  cbn [storable_cell] in Hc. apply N.leb_le in Hc.
  destruct (N.ltb_spec max_str_digits (int_digits n)); [lia|reflexivity].
Qed.

Lemma writerow_or_raise_ok (pf : platform) (cells : list cell) :
  forallb (storable_cell pf) cells = true ->
  writerow_or_raise cells = Ok (writerow cells).
Proof.
  intros H. unfold writerow_or_raise, writerow.
  rewrite (cell_texts_ok pf cells H).
  destruct cells; reflexivity.
Qed.

Lemma written_record_In (texts : list str) (c : char) :
  In c (written_record texts) ->
  (exists f, In f texts /\ In c f) \/ c = quotechar \/ c = delimiter.
Proof.
  unfold written_record. destruct texts as [|f texts]; [intros []|].
  destruct (join_fields (f :: texts)) eqn:E.
  - intros [<-|[<-|[]]]; auto.
  - rewrite <- E. apply join_fields_chars.
Qed.

(** The characters of a record of storable values can be encoded. *)
Lemma writerow_chars (pf : platform) (cells : list cell) :
  (forall c, (c < 128)%N -> encodable pf c = true) ->
  forallb (storable_cell pf) cells = true ->
  forallb (encodable pf) (writerow cells) = true.
Proof.
  intros Ascii H. apply forallb_forall. intros c.
  rewrite writerow_written, in_app_iff. intros [Hc|Hc].
  - apply written_record_In in Hc as [(f & Hf & Hc)|[->| ->]];
      [|now apply Ascii..].
    apply in_map_iff in Hf as (x & <- & Hx).
    rewrite forallb_forall in H. specialize (H x Hx).
    destruct x as [x|n|]; cbn [field_text storable_cell] in *.
    + rewrite forallb_forall in H. now apply H.
    + apply Ascii. now apply str_of_int_chars with n.
    + destruct Hc.
  - apply Ascii. destruct Hc as [<-|[<-|[]]]; reflexivity.
Qed.

Lemma write_rows_ok (pf : platform) (data : list item) :
  os_linesep pf = [LF] ->
  (forall c, (c < 128)%N -> encodable pf c = true) ->
  forallb (storable pf) data = true ->
  forall content,
    write_rows pf data content
    = (Ok tt, content ++ flat_map (fun it => writerow (item_row it)) data).
Proof.
  intros Sep Ascii. induction data as [|it data IH]; intros H content.
  - cbn [write_rows flat_map]. now rewrite app_nil_r.
  - cbn [forallb] in H. apply andb_true_iff in H as [Hit H].
    cbn [write_rows flat_map].
    rewrite (writerow_or_raise_ok pf _ Hit). unfold file_write.
    rewrite Sep, translate_newlines_lf, (writerow_chars pf _ Ascii Hit).
    rewrite (IH H). now rewrite app_assoc.
Qed.

(** On a platform that writes a line end as it is and has the ASCII
    characters, under a name that can be opened, the call of [write] on
    storable data returns, and leaves the file that [write] gives. *)
Lemma write_on_ok (pf : platform) (data : list item) (name : str)
    (fs : files) :
  os_linesep pf = [LF] ->
  (forall c, (c < 128)%N -> encodable pf c = true) ->
  open_error pf (csv_name name) = None ->
  forallb (storable pf) data = true ->
  write_on pf data name fs = (Ok tt, write data name fs).
Proof.
  intros Sep Ascii Open H. unfold write_on, write. rewrite Open.
  now rewrite (write_rows_ok pf data Sep Ascii H []).
Qed.

(** The call stops at a string with a surrogate, which UTF-8 cannot
    encode: it raises, and the file holds the records before. *)
Lemma write_on_stops_at_surrogate :
  write_rows posix_utf8
             [Scalar (CellStr (lit "/a/")); Scalar (CellStr [47; 0xD800; 47]%N);
              Scalar (CellStr (lit "/b/"))] []
  = (Raise UnicodeEncodeError, lit "/a/" ++ [CR; LF]).
Proof. reflexivity. Qed.

(** It stops in the same way at an integer of more digits than the limit
    allows, on every platform. *)
Lemma write_on_stops_at_long_integer (pf : platform) (n : Z)
    (rest : list item) (content : str) :
  (max_str_digits < int_digits n)%N ->
  write_rows pf (Scalar (CellInt n) :: rest) content
  = (Raise ValueError, content).
Proof.
  intros L. cbn [write_rows item_row]. unfold writerow_or_raise.
  cbn [map_result cell_text]. unfold str_of_int_or_raise.
  destruct (N.ltb_spec max_str_digits (int_digits n)); [reflexivity|lia].
Qed.

(** Where the line separator is CR LF, the file has CR CR LF after each
    record, which reads as the record and an empty record; reading flat
    then raises. *)
Lemma write_on_crlf_blank_records :
  let fs := snd (write_on crlf_utf8 [Scalar (CellStr (lit "/a/"))] (lit "p")
                          (fun _ => None)) in
  fs (lit "p.csv") = Some (lit "/a/" ++ [CR; CR; LF]) /\
  read (lit "p") false fs = Ok [Fields [VStr (lit "/a/")]; Fields []] /\
  read (lit "p") true fs = Raise IndexError.
Proof. repeat split. Qed.

(** ** write and read together *)

(** X15: the csv round trip.  On a platform whose line separator is LF
    and whose encoding has the ASCII characters, under a name that can be
    opened, for data whose strings the encoding can encode, whose integers
    are within the limit of 4300 digits, and whose fields have neither CR
    nor LF and are within the reader's field limit, with or without
    commas and quotes in them: [write] returns, and [read] after it
    converts, record by record, exactly the texts of the fields that were
    written; no field is split, merged or changed on the way through the
    file. *)
Theorem csv_round_trip (pf : platform) (data : list item) (name : str)
    (is_flat : bool) (fs : files) :
  os_linesep pf = [LF] ->
  (forall c, (c < 128)%N -> encodable pf c = true) ->
  open_error pf (csv_name name) = None ->
  forallb (storable pf) data = true ->
  forallb line_item data = true ->
  fst (write_on pf data name fs) = Ok tt /\
  read name is_flat (snd (write_on pf data name fs))
  = read_records is_flat (map row_texts data) None.
Proof.
  intros Sep Ascii Open St H.
  rewrite (write_on_ok pf data name fs Sep Ascii Open St).
  split; [reflexivity|]. now apply read_written_records.
Qed.

Lemma posix_utf8_ascii (c : char) :
  (c < 128)%N -> encodable posix_utf8 c = true.
Proof.
  intros H. cbn [encodable posix_utf8].
  destruct (N.ltb_spec c 0xD800); [reflexivity|lia].
Qed.

Lemma csv_round_trip_witness :
  fst (write_on posix_utf8
                [Row [CellStr (lit "/a,b/"); CellInt 12];
                 Scalar (CellStr [47; 34; 47]%N); Row []]
                (lit "t") (fun _ => None)) = Ok tt /\
  read (lit "t") false
       (snd (write_on posix_utf8
                      [Row [CellStr (lit "/a,b/"); CellInt 12];
                       Scalar (CellStr [47; 34; 47]%N); Row []]
                      (lit "t") (fun _ => None)))
  = Ok [Fields [VStr (lit "/a,b/"); VInt 12];
        Fields [VStr [47; 34; 47]%N]; Fields []].
Proof.
  exact (csv_round_trip posix_utf8
           [Row [CellStr (lit "/a,b/"); CellInt 12];
            Scalar (CellStr [47; 34; 47]%N); Row []]
           (lit "t") false (fun _ => None)
           eq_refl posix_utf8_ascii eq_refl eq_refl eq_refl).
Defined.

Lemma read_paths (paths : list str) :
  (forall s, In s paths -> endswith (lit "/") s = true) ->
  read_records true (map row_texts (map item_of_elem (map EStr paths))) None
  = Ok (map datum_of_elem (map EStr paths)).
Proof.
  induction paths as [|s paths IH]; intros H; [reflexivity|].
  cbn [map read_records item_of_elem row_texts item_row field_text
       datum_of_elem].
  unfold read_record, subscript. cbn [nth_error].
  rewrite (_maybe_to_number_keeps s 47%N);
    [|apply endswith_char_In, H; now left|reflexivity].
  rewrite IH; [reflexivity|]. intros s' Hs'. apply H. now right.
Qed.

(** X16: the list of paths survives the file.  On a platform whose line
    separator is LF and whose encoding has the ASCII characters, under a
    name that can be opened: paths that end with a slash, as [filter_path]
    returns them, that the encoding can encode and that have no CR or LF
    (and are within the field limit), written with [write] and read flat,
    come back as the same strings in the same order. *)
Theorem paths_round_trip (pf : platform) (paths : list str) (name : str)
    (fs : files) :
  os_linesep pf = [LF] ->
  (forall c, (c < 128)%N -> encodable pf c = true) ->
  open_error pf (csv_name name) = None ->
  (forall s, In s paths ->
             endswith (lit "/") s = true /\ line_field s = true /\
             forallb (encodable pf) s = true) ->
  fst (write_on pf (map item_of_elem (map EStr paths)) name fs) = Ok tt /\
  read name true
       (snd (write_on pf (map item_of_elem (map EStr paths)) name fs))
  = Ok (map datum_of_elem (map EStr paths)).
Proof.
  intros Sep Ascii Open H. rewrite (write_on_ok pf _ name fs Sep Ascii Open).
  - split; [reflexivity|]. cbn [fst snd]. rewrite read_written_records.
    + apply read_paths. intros s Hs. now apply H.
    + rewrite !forallb_through_map. apply forallb_forall. intros s Hs.
      unfold line_item. cbn. rewrite andb_true_r. now apply H.
  - rewrite !forallb_through_map. apply forallb_forall. intros s Hs.
    unfold storable. cbn. rewrite andb_true_r. now apply H.
Qed.

Lemma paths_round_trip_witness :
  fst (write_on posix_utf8
                [Scalar (CellStr (lit "/a/")); Scalar (CellStr (lit "/b,c/"))]
                (lit "paths") (fun _ => None)) = Ok tt /\
  read (lit "paths") true
       (snd (write_on posix_utf8
                      [Scalar (CellStr (lit "/a/"));
                       Scalar (CellStr (lit "/b,c/"))]
                      (lit "paths") (fun _ => None)))
  = Ok [Flat (VStr (lit "/a/")); Flat (VStr (lit "/b,c/"))].
Proof.
  apply (paths_round_trip posix_utf8 [lit "/a/"; lit "/b,c/"] (lit "paths")
                          (fun _ => None) eq_refl posix_utf8_ascii eq_refl).
  intros s [<-|[<-|[]]]; repeat split; reflexivity.
Defined.

Lemma read_int_field (n : Z) :
  (0 <= n)%Z -> (int_digits n <= max_str_digits)%N ->
  _maybe_to_number (str_of_int n) = Ok (VInt n).
Proof.
  intros Hn L. destruct (str_of_int_nonneg n Hn) as (Ne & A & V).
  unfold int_digits in L. rewrite Z.abs_eq in L by exact Hn.
  now rewrite _maybe_to_number_ascii_digits, V.
Qed.

(** X17: the list of connections survives the file.  On a platform whose
    line separator is LF and whose encoding has the ASCII characters,
    under a name that can be opened: triples of non-negative integers of
    at most 4300 digits each, written with [write] and read as lists of
    fields, come back as the same triples of integers in the same
    order. *)
Theorem connections_round_trip (pf : platform) (conns : list (Z * Z * Z))
    (name : str) (fs : files) :
  os_linesep pf = [LF] ->
  (forall c, (c < 128)%N -> encodable pf c = true) ->
  open_error pf (csv_name name) = None ->
  (forall i j n, In (i, j, n) conns ->
     (0 <= i)%Z /\ (0 <= j)%Z /\ (0 <= n)%Z /\
     (int_digits i <= max_str_digits)%N /\
     (int_digits j <= max_str_digits)%N /\
     (int_digits n <= max_str_digits)%N) ->
  fst (write_on pf (map item_of_elem
                        (map (fun t => EConn (fst (fst t)) (snd (fst t))
                                             (snd t)) conns)) name fs)
  = Ok tt /\
  read name false
       (snd (write_on pf (map item_of_elem
                              (map (fun t => EConn (fst (fst t))
                                                   (snd (fst t)) (snd t))
                                   conns)) name fs))
  = Ok (map datum_of_elem
            (map (fun t => EConn (fst (fst t)) (snd (fst t)) (snd t))
                 conns)).
Proof.
  intros Sep Ascii Open H. rewrite (write_on_ok pf _ name fs Sep Ascii Open).
  - split; [reflexivity|]. cbn [fst snd]. rewrite read_written_records.
    + induction conns as [|[[i j] n] conns IH]; [reflexivity|].
      destruct (H i j n (or_introl eq_refl)) as (Hi & Hj & Hn & Li & Lj & Ln).
      cbn [map read_records item_of_elem row_texts item_row field_text
           datum_of_elem fst snd].
      unfold read_record. cbn [map_result].
      rewrite !read_int_field by assumption.
      rewrite IH; [reflexivity|]. intros i' j' n' Hin. apply H. now right.
    + rewrite !forallb_through_map. apply forallb_forall.
      intros [[i j] n] Hin.
      destruct (H i j n Hin) as (_ & _ & _ & Li & Lj & Ln).
      unfold line_item. cbn [item_of_elem row_texts item_row map field_text
                             forallb fst snd].
      now rewrite !int_field_line.
  - rewrite !forallb_through_map. apply forallb_forall.
    intros [[i j] n] Hin.
    destruct (H i j n Hin) as (_ & _ & _ & Li & Lj & Ln).
    unfold storable. cbn [item_of_elem item_row forallb storable_cell
                          fst snd].
    apply N.leb_le in Li, Lj, Ln. now rewrite Li, Lj, Ln.
Qed.

Lemma connections_round_trip_witness :
  fst (write_on posix_utf8
                [Row [CellInt 0; CellInt 1; CellInt 5];
                 Row [CellInt 0; CellInt 2; CellInt 20]]
                (lit "connections") (fun _ => None)) = Ok tt /\
  read (lit "connections") false
       (snd (write_on posix_utf8
                      [Row [CellInt 0; CellInt 1; CellInt 5];
                       Row [CellInt 0; CellInt 2; CellInt 20]]
                      (lit "connections") (fun _ => None)))
  = Ok [Fields [VInt 0; VInt 1; VInt 5]; Fields [VInt 0; VInt 2; VInt 20]].
Proof.
  apply (connections_round_trip posix_utf8 [(0, 1, 5); (0, 2, 20)]%Z
                                (lit "connections") (fun _ => None)
                                eq_refl posix_utf8_ascii eq_refl).
  intros i j n [[= <- <- <-]|[[= <- <- <-]|[]]];
    repeat split; try lia; vm_compute; discriminate.
Defined.

(** X18: a negative integer does not survive the file.  On a platform
    whose line separator is LF and whose encoding has the ASCII
    characters, under a name that can be opened: a negative integer of at
    most 4300 digits, written as a field and read back, is returned as a
    string, its decimal text with the minus sign, not as an integer. *)
Theorem negative_integer_comes_back_as_string (pf : platform) (n : Z)
    (name : str) (fs : files) :
  os_linesep pf = [LF] ->
  (forall c, (c < 128)%N -> encodable pf c = true) ->
  open_error pf (csv_name name) = None ->
  (n < 0)%Z ->
  (int_digits n <= max_str_digits)%N ->
  _maybe_to_number (str_of_int n) = Ok (VStr (str_of_int n)) /\
  fst (write_on pf [Row [CellInt n]] name fs) = Ok tt /\
  read name false (snd (write_on pf [Row [CellInt n]] name fs))
  = Ok [Fields [VStr (str_of_int n)]].
Proof.
  intros Sep Ascii Open Hn L.
  assert (_maybe_to_number (str_of_int n) = Ok (VStr (str_of_int n))) as K.
  { destruct (str_of_int_negative n Hn) as [s E]. rewrite E.
    apply _maybe_to_number_signed. }
  split; [exact K|].
  rewrite (write_on_ok pf _ name fs Sep Ascii Open).
  - split; [reflexivity|]. cbn [fst snd]. rewrite read_written_records.
    + cbn [map read_records row_texts item_row field_text].
      unfold read_record. cbn [map_result]. now rewrite K.
    + cbn. now rewrite (int_field_line n L).
  - cbn. apply N.leb_le in L. now rewrite L.
Qed.

Lemma negative_integer_comes_back_as_string_witness :
  fst (write_on posix_utf8 [Row [CellInt (-3)]] (lit "c") (fun _ => None))
  = Ok tt /\
  read (lit "c") false
       (snd (write_on posix_utf8 [Row [CellInt (-3)]] (lit "c")
                      (fun _ => None)))
  = Ok [Fields [VStr (lit "-3")]].
Proof.
  assert (int_digits (-3) <= max_str_digits)%N as L
    by (vm_compute; discriminate).
  exact (proj2 (negative_integer_comes_back_as_string
                  posix_utf8 (-3) (lit "c") (fun _ => None)
                  eq_refl posix_utf8_ascii eq_refl eq_refl L)).
Defined.

(** X19: reading flat takes the first field of every record, so it
    raises on a record without fields: data whose fields are on one line
    and that has an empty list among its rows cannot be read back flat;
    when the empty list is the first row, the exception is [IndexError]. *)
Theorem flat_read_needs_a_field (data : list item) (name : str)
    (fs : files) :
  forallb line_item data = true ->
  In (Row []) data ->
  (exists e, read name true (write data name fs) = Raise e) /\
  (forall rest, data = Row [] :: rest ->
                read name true (write data name fs) = Raise IndexError).
Proof.
  intros H Hin. rewrite read_written_records by exact H. split.
  - apply read_records_raises with [] IndexError; [|reflexivity].
    apply in_map_iff. exists (Row []). auto.
  - intros rest ->. reflexivity.
Qed.

Lemma flat_read_needs_a_field_witness :
  read (lit "p") true
       (write [Row []; Scalar (CellStr (lit "/a/"))] (lit "p")
              (fun _ => None))
  = Raise IndexError.
Proof.
  apply (proj2 (flat_read_needs_a_field
                  [Row []; Scalar (CellStr (lit "/a/"))] (lit "p")
                  (fun _ => None) eq_refl (or_introl eq_refl))
               [Scalar (CellStr (lit "/a/"))] eq_refl).
Defined.

(** ** show *)

Lemma list_sum_cons (x : nat) (l : list nat) :
  list_sum (x :: l) = x + list_sum l.
Proof. reflexivity. Qed.

Lemma show_dimensions_length (dhs ds : list str) :
  length (show_dimensions dhs ds) = Nat.min (length dhs) (length ds).
Proof.
  revert ds. induction dhs as [|hd dhs IH]; intros [|d ds]; simpl; auto.
Qed.

Lemma show_values_named (mhs : list metric_header) (vals : list str) :
  headers_have_names mhs = true ->
  snd (show_values mhs vals) = None /\
  length (fst (show_values mhs vals))
  = Nat.min (length mhs) (length vals).
Proof.
  revert vals. induction mhs as [|mh mhs IH]; intros [|v vals] H; simpl; auto.
  cbn [headers_have_names forallb] in H.
  apply andb_true_iff in H as [Hn Hs].
  destruct (header_name mh) as [n|]; [|discriminate].
  destruct (IH vals Hs) as [E L].
  destruct (show_values mhs vals) as [out err]. simpl in *. auto.
Qed.

Lemma show_metrics_showable (mhs : list metric_header) (ms : list metric) :
  headers_have_names mhs = true ->
  forallb (fun m => match values m with Some _ => true | None => false end)
          ms = true ->
  snd (show_metrics mhs ms) = None /\
  length (fst (show_metrics mhs ms))
  = list_sum (map (fun m => Nat.min (length mhs)
                                    (length (get_or (values m) []))) ms).
Proof.
  intros Hn. induction ms as [|m ms IH]; intros H; [auto|].
  cbn [forallb] in H. apply andb_true_iff in H as [Hm Hms].
  cbn [show_metrics map]. rewrite list_sum_cons.
  destruct (values m) as [vals|]; [|discriminate].
  destruct (show_values_named mhs vals Hn) as [E L].
  destruct (show_values mhs vals) as [out err].
  cbn [fst snd] in E, L. subst err.
  destruct (IH Hms) as [E' L'].
  destruct (show_metrics mhs ms) as [out' err']. cbn [fst snd get_or] in *.
  split; [exact E'|]. rewrite length_app. lia.
Qed.

Lemma show_rows_showable (dhs : list str) (mhs : list metric_header)
    (rws : list row) :
  headers_have_names mhs = true ->
  forallb metrics_have_values rws = true ->
  forall k,
    snd (show_rows dhs mhs k rws) = None /\
    length (fst (show_rows dhs mhs k rws))
    = list_sum (map (row_line_count dhs mhs) rws).
Proof.
  intros Hn. induction rws as [|r rws IH]; intros H k; [auto|].
  cbn [forallb] in H. apply andb_true_iff in H as [Hr Hrws].
  cbn [show_rows map]. rewrite list_sum_cons.
  unfold show_row, row_line_count at 1.
  destruct (show_metrics_showable mhs (get_or (metrics r) []) Hn Hr)
    as [E L].
  destruct (show_metrics mhs (get_or (metrics r) [])) as [out err].
  cbn [fst snd] in E, L. subst err.
  destruct (IH Hrws (k + 1)%Z) as [E' L'].
  destruct (show_rows dhs mhs (k + 1) rws) as [out' err'].
  cbn [fst snd] in *. split; [exact E'|].
  rewrite length_app. cbn [length].
  rewrite length_app, show_dimensions_length. lia.
Qed.

(** X20: when the metric headers of every report have a name and every
    metric of every row has values, [show] does not raise, whatever the
    numbers of headers, dimension values and metric values are, and it
    prints for each row its number line, one line for each dimension value
    that has a header and one line for each metric value that has a
    header: values beyond the headers, and headers beyond the values, are
    not shown. *)
Theorem show_line_count (rs : shown_response) :
  forallb showable (get_or (shown_reports rs) []) = true ->
  snd (show rs) = None /\
  length (fst (show rs))
  = list_sum (map report_line_count (get_or (shown_reports rs) [])).
Proof.
  unfold show. induction (get_or (shown_reports rs) []) as [|rp rps IH];
    intros H; [auto|].
  cbn [forallb] in H. apply andb_true_iff in H as [Hrp Hrps].
  apply andb_true_iff in Hrp as [Hn Hv].
  cbn [show_reports map]. rewrite list_sum_cons.
  change (show_report rp)
    with (show_rows (dimension_headers_of rp) (metric_headers_of rp) 0
                    (report_rows (shown_body rp))).
  unfold report_line_count at 1.
  destruct (show_rows_showable (dimension_headers_of rp)
                               (metric_headers_of rp)
                               (report_rows (shown_body rp)) Hn Hv 0%Z)
    as [E L].
  destruct (show_rows _ _ 0 (report_rows (shown_body rp))) as [out err].
  cbn [fst snd] in E, L. subst err.
  destruct (IH Hrps) as [E' L'].
  destruct (show_reports rps) as [out' err']. cbn [fst snd] in *.
  split; [exact E'|]. rewrite length_app. lia.
Qed.

Lemma show_line_count_witness :
  fst (show (sample_shown rows_ab_ac))
  = [lit "0. "; lit "ga:date: 20240101"; lit "ga:previousPagePath: /a/";
     lit "ga:pagePath: /b/"; lit "ga:pageviews=5";
     lit "1. "; lit "ga:date: 20240101"; lit "ga:previousPagePath: /a/";
     lit "ga:pagePath: /c/"; lit "ga:pageviews=2"] /\
  length (fst (show (sample_shown rows_ab_ac))) = 10.
Proof.
  split; [reflexivity|].
  exact (proj2 (show_line_count (sample_shown rows_ab_ac) eq_refl)).
Defined.

Lemma show_metrics_without_headers (ms : list metric) :
  forallb (fun m => match values m with Some _ => true | None => false end)
          ms = true ->
  show_metrics [] ms = ([], None).
Proof.
  induction ms as [|m ms IH]; intros H; [reflexivity|].
  cbn [forallb] in H. apply andb_true_iff in H as [Hm Hms].
  cbn [show_metrics]. destruct (values m); [|discriminate].
  cbn [show_values]. now rewrite IH.
Qed.

Lemma show_rows_without_headers (rws : list row) :
  forallb metrics_have_values rws = true ->
  forall k,
    show_rows [] [] (Z.of_nat k) rws
    = (map (fun i => str_of_int (Z.of_nat i) ++ lit ". ")
           (seq k (length rws)), None).
Proof.
  induction rws as [|r rws IH]; intros H k; [reflexivity|].
  cbn [forallb] in H. apply andb_true_iff in H as [Hr Hrws].
  cbn [show_rows length seq map]. unfold show_row.
  rewrite (show_metrics_without_headers _ Hr). cbn [show_dimensions app].
  replace (Z.of_nat k + 1)%Z with (Z.of_nat (S k)) by lia.
  now rewrite (IH Hrws (S k)).
Qed.

(** X21: a response without column headers: when every metric of every
    row has values, [show] prints nothing but the number lines of the
    rows, and the numbers start again at 0 in each report; no dimension
    and no metric value is shown. *)
Theorem show_without_headers (rps : list report) :
  (forall rp, In rp rps ->
              forallb metrics_have_values (report_rows rp) = true) ->
  show {| shown_reports := Some (map headerless rps) |}
  = (flat_map (fun rp => number_lines (length (report_rows rp))) rps, None).
Proof.
  unfold show. cbn [get_or shown_reports].
  induction rps as [|rp rps IH]; intros H; [reflexivity|].
  cbn [map show_reports flat_map]. unfold show_report at 1.
  cbn [headerless columnHeader shown_body get_or header_dimensions
       metricHeader metricHeaderEntries].
  pose proof (show_rows_without_headers _ (H rp (or_introl eq_refl)) 0)
    as E.
  change (Z.of_nat 0) with 0%Z in E. rewrite E.
  rewrite IH by (intros rp' Hin; apply H; now right). reflexivity.
Qed.

Lemma show_without_headers_witness :
  show {| shown_reports :=
            Some (map headerless
                      (get_or (reports (sample_response rows_ab_ac None)) []
                       ++ get_or (reports (sample_response rows_cd None)) []))
       |}
  = ([lit "0. "; lit "1. "; lit "0. "], None).
Proof.
  rewrite show_without_headers; [reflexivity|].
  intros rp [<-|[<-|[]]]; reflexivity.
Defined.

Lemma show_rows_app (dhs : list str) (mhs : list metric_header)
    (before rest : list row) :
  forall k,
    show_rows dhs mhs k (before ++ rest)
    = match show_rows dhs mhs k before with
      | (out, Some e) => (out, Some e)
      | (out, None) =>
          let '(out', err) :=
            show_rows dhs mhs (k + Z.of_nat (length before)) rest in
          (out ++ out', err)
      end.
Proof.
  induction before as [|r before IH]; intros k.
  - cbn [app show_rows length]. rewrite Z.add_0_r.
    now destruct (show_rows dhs mhs k rest).
  - cbn [app show_rows]. destruct (show_row dhs mhs k r) as [out [e|]];
      [reflexivity|].
    rewrite IH. destruct (show_rows dhs mhs (k + 1) before) as [o1 [e|]];
      [reflexivity|].
    replace (k + 1 + Z.of_nat (length before))%Z
      with (k + Z.of_nat (length (r :: before)))%Z by (cbn [length]; lia).
    destruct (show_rows dhs mhs _ rest) as [o2 err].
    now rewrite app_assoc.
Qed.

(** X22: a metric without values makes [show] raise [TypeError]: when the
    first metric of a row of the first report has no values, [show] stops
    at that row, having printed the lines of the rows before it, the
    number line of the row and its dimension lines; the rows after it and
    the other reports are not shown. *)
Theorem show_raises_without_values (rp : shown_report)
    (others : list shown_report) (before after : list row) (r : row)
    (m : metric) (ms : list metric) (out : list str) :
  report_rows (shown_body rp) = before ++ r :: after ->
  show_rows (dimension_headers_of rp) (metric_headers_of rp) 0 before
  = (out, None) ->
  get_or (metrics r) [] = m :: ms ->
  values m = None ->
  show {| shown_reports := Some (rp :: others) |}
  = (out ++ (str_of_int (Z.of_nat (length before)) ++ lit ". ")
         :: show_dimensions (dimension_headers_of rp)
                            (get_or (dimensions r) []),
     Some TypeError).
Proof.
  intros Hrows Hbefore Hm Hv. unfold show. cbn [get_or shown_reports].
  cbn [show_reports].
  change (show_report rp)
    with (show_rows (dimension_headers_of rp) (metric_headers_of rp) 0
                    (report_rows (shown_body rp))).
  rewrite Hrows, show_rows_app, Hbefore. cbn [show_rows].
  unfold show_row. rewrite Hm. cbn [show_metrics]. rewrite Hv.
  now rewrite app_nil_r.
Qed.

Lemma show_raises_without_values_witness :
  show (sample_shown (rows_cd ++ [row_without_values] ++ rows_ab_ac))
  = ([lit "0. "; lit "ga:date: 20240102"; lit "ga:previousPagePath: /c/";
      lit "ga:pagePath: /d/"; lit "ga:pageviews=1";
      lit "1. "; lit "ga:date: 20240103"; lit "ga:previousPagePath: /x/";
      lit "ga:pagePath: /y/"],
     Some TypeError).
Proof.
  exact (show_raises_without_values
           {| columnHeader :=
                Some {| header_dimensions :=
                          Some [lit "ga:date"; lit "ga:previousPagePath";
                                lit "ga:pagePath"];
                        metricHeader :=
                          Some {| metricHeaderEntries :=
                                    Some [ {| header_name :=
                                                Some (lit "ga:pageviews")
                                           |} ] |} |};
              shown_body :=
                {| data := Some {| rows := Some (rows_cd
                                                 ++ [row_without_values]
                                                 ++ rows_ab_ac) |};
                   nextPageToken := None |} |}
           [] rows_cd rows_ab_ac row_without_values
           {| values := None |} []
           [lit "0. "; lit "ga:date: 20240102";
            lit "ga:previousPagePath: /c/"; lit "ga:pagePath: /d/";
            lit "ga:pageviews=1"]
           eq_refl eq_refl eq_refl eq_refl).
Defined.
